(** * A shallow embedding of the mino.rs engine: the [grid] crate, the
    [input_counter] crate, [mino_core::common] and [mino_core::tetro]. *)

From Stdlib Require Import ZArith QArith Qround Lia.
From stdpp Require Import base list strings.

Open Scope Z_scope.

(** Outcomes of a computation of the source: a value, a Rust panic, or a
    loop that did not exit within the fuel it was given. *)
Inductive outcome (A : Type) : Type :=
| Ret (a : A)
| Panic (msg : string)
| Diverge.
Arguments Ret {A}.
Arguments Panic {A}.
Arguments Diverge {A}.

Definition obind {A B} (k : A -> outcome B) (m : outcome A) : outcome B :=
  match m with
  | Ret a => k a
  | Panic s => Panic s
  | Diverge => Diverge
  end.

#[global] Instance outcome_mbind : MBind outcome := @obind.
#[global] Instance outcome_mret : MRet outcome := @Ret.

(** Rust's [Default] and the grid crate's [IsEmpty] traits. *)
Class Default (C : Type) := default_value : C.
Class IsEmpty (C : Type) := is_empty : C -> bool.

(** Bitflags [OverlayResult] (a [u32]). *)
Definition OVERFLOW : Z := 1.
Definition OVERLAP : Z := 2.
Definition flags_contains (r f : Z) : bool := Z.land r f =? f.
Definition flags_is_empty (r : Z) : bool := r =? 0.

(** ** The [grid] crate ([src/grid/src/lib.rs]) *)
Module Grid.

Record Grid (C : Type) := mkGrid {
  num_rows : nat;
  num_cols : nat;
  cells : list C;
}.
Arguments mkGrid {C}.
Arguments num_rows {C}.
Arguments num_cols {C}.
Arguments cells {C}.

Section GridOps.
Context {C : Type} `{Default C} `{IsEmpty C}.

(** The [cells] field is private and [Grid::new] resizes it to
    [cols * rows]: the invariant of the type. *)
Definition wf (g : Grid C) : Prop := length (cells g) = (num_cols g * num_rows g)%nat.

Definition new (cols rows : nat) (cs : list C) : Grid C :=
  mkGrid rows cols (resize (cols * rows) default_value cs).

Definition is_valid_cell_index (g : Grid C) (x y : nat) : bool :=
  (x <? num_cols g)%nat && (y <? num_rows g)%nat.

(** The asserts of [cell_index] hold at every call site modelled here. *)
Definition cell_index (g : Grid C) (x y : nat) : nat := (x + y * num_cols g)%nat.

Definition cell (g : Grid C) (x y : nat) : C :=
  match cells g !! cell_index g x y with
  | Some c => c
  | None => default_value
  end.

Definition set_cell (g : Grid C) (x y : nat) (c : C) : Grid C :=
  mkGrid (num_rows g) (num_cols g) (<[cell_index g x y := c]> (cells g)).

Definition fill_row (g : Grid C) (y : nat) (c : C) : Grid C :=
  fold_left (fun g x => set_cell g x y c) (seq 0 (num_cols g)) g.

Definition fill_rows (g : Grid C) (y0 y1 : nat) (c : C) : Grid C :=
  fold_left (fun g y => fill_row g y c) (seq y0 (y1 - y0)) g.

Definition reverse_rows (g : Grid C) : Grid C :=
  fold_left (fun g y =>
      let yy := (num_rows g - 1 - y)%nat in
      fold_left (fun g x =>
          let t := cell g x y in
          let g := set_cell g x y (cell g x yy) in
          set_cell g x yy t) (seq 0 (num_cols g)) g)
    (seq 0 (num_rows g / 2)) g.

Definition rotate_with (g : Grid C) (cols rows : nat) (pos : nat -> nat -> nat * nat) : Grid C :=
  fold_left (fun acc y =>
      fold_left (fun acc x =>
          let '(a, b) := pos x y in set_cell acc a b (cell g x y))
        (seq 0 (num_cols g)) acc)
    (seq 0 (num_rows g)) (new cols rows []).

Definition rotate1 (g : Grid C) : Grid C :=
  rotate_with g (num_rows g) (num_cols g) (fun x y => (y, num_cols g - 1 - x)%nat).
Definition rotate2 (g : Grid C) : Grid C :=
  rotate_with g (num_cols g) (num_rows g)
    (fun x y => (num_cols g - 1 - x, num_rows g - 1 - y)%nat).
Definition rotate3 (g : Grid C) : Grid C :=
  rotate_with g (num_rows g) (num_cols g) (fun x y => (num_rows g - 1 - y, x)%nat).

Definition move_row (g : Grid C) (src_y dst_y : nat) (placeholder : option C) : Grid C :=
  fold_left (fun g x =>
      let g := set_cell g x dst_y (cell g x src_y) in
      match placeholder with
      | Some c => set_cell g x src_y c
      | None => g
      end) (seq 0 (num_cols g)) g.

Definition is_row_filled (g : Grid C) (y : nat) : bool :=
  forallb (fun x => negb (is_empty (cell g x y))) (seq 0 (num_cols g)).

(** The [for y in 0..num_rows] loop of [pluck_filled_rows], with its
    [continue] and its [break]. *)
Fixpoint pluck_loop (ys : list nat) (n : nat) (g : Grid C) : Grid C * nat :=
  match ys with
  | [] => (g, n)
  | y :: ys' =>
      if is_row_filled g y then pluck_loop ys' (S n) g
      else
        let g := if (0 <? n)%nat then move_row g y (y - n) None else g in
        if (y =? num_rows g - n)%nat then (g, n) else pluck_loop ys' n g
  end.

Definition pluck_filled_rows (g : Grid C) (placeholder : option C) : Grid C * nat :=
  let '(g, n) := pluck_loop (seq 0 (num_rows g)) 0 g in
  match placeholder with
  | Some c => (fill_rows g (num_rows g - n) (num_rows g) c, n)
  | None => (g, n)
  end.

(** One iteration of the double loop of [check_overlay]. *)
Definition check_overlay_cell (g sub : Grid C) (x y : Z) (result : Z) (sub_x sub_y : nat) : Z :=
  let sub_cell := cell sub sub_x sub_y in
  if is_empty sub_cell then result
  else
    let self_x := x + Z.of_nat sub_x in
    let self_y := y + Z.of_nat sub_y in
    if (self_x <? 0) || (Z.of_nat (num_cols g) <=? self_x)
       || (self_y <? 0) || (Z.of_nat (num_rows g) <=? self_y)
    then Z.lor result OVERFLOW
    else if negb (is_empty (cell g (Z.to_nat self_x) (Z.to_nat self_y)))
    then Z.lor result OVERLAP
    else result.

Definition check_overlay (g : Grid C) (x y : Z) (sub : Grid C) : Z :=
  fold_left (fun r sub_y =>
      fold_left (fun r sub_x => check_overlay_cell g sub x y r sub_x sub_y)
        (seq 0 (num_cols sub)) r)
    (seq 0 (num_rows sub)) 0.

(** One iteration of the double loop of [overlay]. *)
Definition overlay_cell (sub : Grid C) (x y : Z) (st : Grid C * Z) (sub_x sub_y : nat) : Grid C * Z :=
  let '(g, result) := st in
  let sub_cell := cell sub sub_x sub_y in
  if is_empty sub_cell then (g, result)
  else
    let self_x := x + Z.of_nat sub_x in
    let self_y := y + Z.of_nat sub_y in
    if (self_x <? 0) || (Z.of_nat (num_cols g) <=? self_x)
       || (self_y <? 0) || (Z.of_nat (num_rows g) <=? self_y)
    then (g, Z.lor result OVERFLOW)
    else if negb (is_empty (cell g (Z.to_nat self_x) (Z.to_nat self_y)))
    then (g, Z.lor result OVERLAP)
    else (set_cell g (Z.to_nat self_x) (Z.to_nat self_y) sub_cell, result).

Definition overlay (g : Grid C) (x y : Z) (sub : Grid C) : Grid C * Z :=
  fold_left (fun st sub_y =>
      fold_left (fun st sub_x => overlay_cell sub x y st sub_x sub_y)
        (seq 0 (num_cols sub)) st)
    (seq 0 (num_rows sub)) (g, 0).

(** The [loop] of [check_overlay_toward]; [None] when the fuel runs out.
    Coordinates are unbounded integers: the [i32] additions are assumed
    not to overflow. *)
Fixpoint toward_loop (fuel : nat) (g sub : Grid C) (dx dy tx ty : Z) (n : nat)
  : option (nat * Z) :=
  match fuel with
  | O => None
  | S fuel' =>
      let r := check_overlay g tx ty sub in
      if negb (flags_is_empty r) then Some (n, r)
      else toward_loop fuel' g sub dx dy (tx + dx) (ty + dy) (S n)
  end.

Definition check_overlay_toward (fuel : nat) (g : Grid C) (x y : Z) (sub : Grid C) (dx dy : Z)
  : outcome (nat * Z) :=
  if negb (negb (dx =? 0) || negb (dy =? 0)) then Panic "assertion failed: dx != 0 || dy != 0"
  else match toward_loop fuel g sub dx dy x y 0 with
       | Some res => Ret res
       | None => Diverge
       end.

Definition bottom_padding (g : Grid C) : nat :=
  match find (fun n => existsb (fun x => negb (is_empty (cell g x n))) (seq 0 (num_cols g)))
              (seq 0 (num_rows g)) with
  | Some n => n
  | None => num_rows g
  end.

Definition top_padding (g : Grid C) : nat :=
  match find (fun n => existsb (fun x => negb (is_empty (cell g x (num_rows g - n - 1))))
                          (seq 0 (num_cols g)))
              (seq 0 (num_rows g)) with
  | Some n => n
  | None => num_rows g
  end.

(** A grid holding at least one non-empty cell. *)
Definition has_nonempty (sub : Grid C) : Prop :=
  exists sx sy, (sx < num_cols sub)%nat /\ (sy < num_rows sub)%nat /\
                is_empty (cell sub sx sy) = false.

(** Number of non-empty cells. *)
Definition count_nonempty (g : Grid C) : nat :=
  length (List.filter (fun c => negb (is_empty c)) (cells g)).

End GridOps.
End Grid.

(** The cell type of the grid crate's own tests: [u8], empty when 0. *)
#[global] Instance default_u8 : Default N := 0%N.
#[global] Instance is_empty_u8 : IsEmpty N := fun c => (c =? 0)%N.

(** The 2x4 grid: rows 0 and 1 full, rows 2 and 3 holding one block in
    column 0 (row 0 is the bottom row). *)
Definition pluck_example : Grid.Grid N :=
  Grid.new 2 4 [1; 1;  1; 1;  1; 0;  1; 0]%N.

(** ** The [input_counter] crate ([src/input_counter/src/lib.rs]) *)
Module InputCounter.

Inductive InputState := Inactive | Delay | Repeat | End.

(** [Num] is [Frames = u8] in the engine.  [n] never exceeds
    [opt_first_delay] or [opt_repeat], so the [u8] additions do not
    overflow, and [Repeat] is only entered with [opt_repeat <> 0], so the
    [%] never divides by zero. *)
Record InputCounter := mkInputCounter {
  opt_repeat : N;
  opt_first_delay : N;
  state : InputState;
  can_handle : bool;
  is_handled : bool;
  n : N;
}.

Definition new (repeat first_delay : N) : InputCounter :=
  mkInputCounter repeat (if (first_delay =? 0)%N then repeat else first_delay)
    Inactive false false 0.

Definition update (c : InputCounter) (active : bool) : InputCounter :=
  if negb active then mkInputCounter (opt_repeat c) (opt_first_delay c) Inactive false false 0
  else if can_handle c && negb (is_handled c) then c
  else
    match state c with
    | Inactive =>
        mkInputCounter (opt_repeat c) (opt_first_delay c)
          (if (opt_repeat c =? 0)%N then End else Delay) true false (n c)
    | Delay =>
        let n' := (n c + 1)%N in
        let ch := (n' =? opt_first_delay c)%N in
        if ch then mkInputCounter (opt_repeat c) (opt_first_delay c) Repeat true false 0
        else mkInputCounter (opt_repeat c) (opt_first_delay c) Delay false false n'
    | Repeat =>
        let n' := N.modulo (n c + 1) (opt_repeat c) in
        mkInputCounter (opt_repeat c) (opt_first_delay c) Repeat (n' =? 0)%N false n'
    | End =>
        mkInputCounter (opt_repeat c) (opt_first_delay c) End (can_handle c) false (n c)
    end.

Definition handle (c : InputCounter) : bool * InputCounter :=
  if can_handle c then
    (true, mkInputCounter (opt_repeat c) (opt_first_delay c) (state c) false true (n c))
  else (false, c).

(** [InputManager]: a [HashMap] from inputs (bitflags, as [Z]) to
    counters, as an association list whose keys are registered once. *)
Definition InputManager := list (Z * InputCounter).

Definition register (m : InputManager) (input : Z) (c : InputCounter) : InputManager :=
  (input, c) :: List.filter (fun '(i, _) => negb (i =? input)) m.

(** [inputs.contains(i)] on the raw bitmask of the frame. *)
Definition mgr_update (m : InputManager) (inputs : Z) : InputManager :=
  map (fun '(i, c) => (i, update c (Z.land inputs i =? i))) m.

Fixpoint mgr_handle (m : InputManager) (input : Z) : bool * InputManager :=
  match m with
  | [] => (false, [])
  | (i, c) :: m' =>
      if i =? input then let '(b, c') := handle c in (b, (i, c') :: m')
      else let '(b, m'') := mgr_handle m' input in (b, (i, c) :: m'')
  end.

End InputCounter.

(** ** [mino_core::common] ([src/mino_core/src/common.rs]) *)
Module Common.
Import Grid InputCounter.

Inductive Rotation := Cw0 | Cw90 | Cw180 | Cw270.

Definition rotation_index (r : Rotation) : Z :=
  match r with Cw0 => 0 | Cw90 => 1 | Cw180 => 2 | Cw270 => 3 end.

(** [%] on [i16] is Rust's truncated remainder, [Z.rem]. *)
Definition rotate_cw (r : Rotation) (n : Z) : outcome Rotation :=
  match Z.rem (rotation_index r + n) 4 with
  | 0 => Ret Cw0
  | 1 => Ret Cw90
  | 2 => Ret Cw180
  | 3 => Ret Cw270
  | _ => Panic "never matched"
  end.

Definition cw (r : Rotation) : outcome Rotation := rotate_cw r 1.
Definition ccw (r : Rotation) : outcome Rotation := rotate_cw r (-1).

Inductive Cell (P : Type) := Empty | Block (p : P) | Garbage.
Arguments Empty {P}.
Arguments Block {P}.
Arguments Garbage {P}.

#[global] Instance cell_is_empty {P} : IsEmpty (Cell P) :=
  fun c => match c with Empty => true | _ => false end.
#[global] Instance cell_default {P} : Default (Cell P) := Empty.

(** The [Piece] trait. *)
Class Piece (P : Type) := piece_grid : P -> Rotation -> Grid (Cell P).

(** Bitflags [Input] ([u32]). *)
Definition HARD_DROP : Z := 1.
Definition SOFT_DROP : Z := 2.
Definition FIRM_DROP : Z := 4.
Definition MOVE_LEFT : Z := 8.
Definition MOVE_RIGHT : Z := 16.
Definition ROTATE_CW : Z := 32.
Definition ROTATE_CCW : Z := 64.
Definition HOLD : Z := 128.

Definition input_contains (input f : Z) : bool := Z.land input f =? f.

(** Bitflags [LossCondition]. *)
Definition LOCK_OUT : Z := 1.
Definition PARTIAL_LOCK_OUT : Z := 2.
Definition GARBAGE_OUT : Z := 4.

Section WithPiece.
Context {P : Type} `{Piece P}.

Record FallingPiece := mkFallingPiece {
  piece : P;
  x : Z;
  y : Z;
  rotation : Rotation;
}.

Record Playfield := mkPlayfield {
  visible_rows : nat;
  grid : Grid (Cell P);
}.

Definition fp_grid (fp : FallingPiece) : Grid (Cell P) := piece_grid (piece fp) (rotation fp).

Definition with_x (fp : FallingPiece) (nx : Z) : FallingPiece :=
  mkFallingPiece (piece fp) nx (y fp) (rotation fp).
Definition with_y (fp : FallingPiece) (ny : Z) : FallingPiece :=
  mkFallingPiece (piece fp) (x fp) ny (rotation fp).

Definition is_lock_out (fp : FallingPiece) (pf : Playfield) : bool :=
  Z.of_nat (visible_rows pf) <=? y fp + Z.of_nat (bottom_padding (fp_grid fp)).

Definition is_partial_lock_out (fp : FallingPiece) (pf : Playfield) : bool :=
  Z.of_nat (visible_rows pf)
  <=? y fp + Z.of_nat (num_rows (fp_grid fp) - top_padding (fp_grid fp)).

Definition can_put_onto (fp : FallingPiece) (pf : Playfield) : bool :=
  flags_is_empty (check_overlay (grid pf) (x fp) (y fp) (fp_grid fp)).

Definition put_onto (fp : FallingPiece) (pf : Playfield) : Playfield * Z :=
  let '(g, r) := overlay (grid pf) (x fp) (y fp) (fp_grid fp) in
  (mkPlayfield (visible_rows pf) g, r).

(** Fuel for the downward [check_overlay_toward] loop: the loop exits
    once the piece has left the grid through its bottom row. *)
Definition droppable_fuel (fp : FallingPiece) : nat :=
  (Z.to_nat (y fp + 1) + num_rows (fp_grid fp) + 1)%nat.

Definition droppable_rows (fp : FallingPiece) (pf : Playfield) : outcome nat :=
  r ← check_overlay_toward (droppable_fuel fp) (grid pf) (x fp) (y fp) (fp_grid fp) 0 (-1);
  let '(n, _r) := r in Ret n.

(** [LossCondition::check]. *)
Definition loss_check (self : Z) (fp : FallingPiece) (pf : Playfield) : Z :=
  if flags_contains self LOCK_OUT && is_lock_out fp pf then self
  else if flags_contains self PARTIAL_LOCK_OUT && is_partial_lock_out fp pf then self
  else 0.

(** [GameParams]. Gravities are [f32]; they are rationals here. *)
Record GameParams := mkGameParams {
  gravity : Q;
  soft_drop_gravity : Q;
  lock_delay : N;
  lock_delay_cancel : bool;
  das : N;
  arr : N;
  are : N;
  line_clear_delay : N;
  loss_condition : Z;
}.

(** The [GameLogic] trait of this file; [spawn_piece] and [rotate] may
    panic. *)
Record GameLogic := mkGameLogic {
  spawn_piece : P -> nat -> nat -> nat -> outcome FallingPiece;
  logic_rotate : bool -> FallingPiece -> Playfield -> outcome (option FallingPiece);
}.

Record GameConfig := mkGameConfig {
  logic : GameLogic;
  params : GameParams;
}.

Record GameStateData := mkGameStateData {
  playfield : Playfield;
  falling_piece : option FallingPiece;
  hold_piece : option P;
  next_pieces : list P;
  input_mgr : InputManager;
}.

Definition set_input_mgr (d : GameStateData) (m : InputManager) : GameStateData :=
  mkGameStateData (playfield d) (falling_piece d) (hold_piece d) (next_pieces d) m.
Definition set_falling_piece (d : GameStateData) (fp : option FallingPiece) : GameStateData :=
  mkGameStateData (playfield d) fp (hold_piece d) (next_pieces d) (input_mgr d).
Definition set_playfield (d : GameStateData) (pf : Playfield) : GameStateData :=
  mkGameStateData pf (falling_piece d) (hold_piece d) (next_pieces d) (input_mgr d).

(** [new_input_manager]: note the arguments [InputCounter::new(das, arr)]
    for the moves, as in the source. *)
Definition new_input_manager (das arr : N) : InputManager :=
  let m := [] in
  let m := register m HARD_DROP (InputCounter.new 0 0) in
  let m := register m SOFT_DROP (InputCounter.new 0 0) in
  let m := register m FIRM_DROP (InputCounter.new 0 0) in
  let m := register m MOVE_LEFT (InputCounter.new das arr) in
  let m := register m MOVE_RIGHT (InputCounter.new das arr) in
  let m := register m ROTATE_CW (InputCounter.new 0 0) in
  let m := register m ROTATE_CCW (InputCounter.new 0 0) in
  register m HOLD (InputCounter.new 0 0).

(** The boxed [dyn GameState] objects, with the fields of each state. *)
Inductive GameState :=
| StInit
| StPlay (gravity_counter : Q) (lock_delay_counter : N) (is_piece_held : bool)
| StLock
| StLineClear (counter : N)
| StSpawnPiece
| StGameOver (loss_cond : Z)
| StError (reason : string).

Inductive GameStateId := Init | Play | Lock | LineClear | SpawnPiece | GameOver | Error.

Definition id (s : GameState) : GameStateId :=
  match s with
  | StInit => Init | StPlay _ _ _ => Play | StLock => Lock | StLineClear _ => LineClear
  | StSpawnPiece => SpawnPiece | StGameOver _ => GameOver | StError _ => Error
  end.

Inductive Result (A : Type) := Ok (a : A) | Err (reason : string).
Arguments Ok {A}.
Arguments Err {A}.

Definition Transition := Result (option GameState).

(** [+= 1] on a [u8] (debug build: overflow panics). *)
Definition u8_incr (v : N) : outcome N :=
  if (v <? 255)%N then Ret (v + 1)%N else Panic "attempt to add with overflow".

Definition unwrap {A} (o : option A) : outcome A :=
  match o with
  | Some a => Ret a
  | None => Panic "called `Option::unwrap()` on a `None` value"
  end.

(** [f32 as usize]: truncation, saturating at 0. *)
Definition q_as_usize (q : Q) : nat := Z.to_nat (Qfloor q).

(** Steps 6 to 9 of [GameStatePlay::update]: horizontal move, rotation,
    gravity drop and write back. *)
Definition play_move (cfg : GameConfig) (gc : Q) (ldc : N) (held : bool)
  (data : GameStateData) (mgr : InputManager) (fp : FallingPiece)
  : outcome (GameState * GameStateData * Transition) :=
  let pf := playfield data in
  let moved := fp in
  let '(l, mgr) := mgr_handle mgr MOVE_LEFT in
  let '(dx, mgr) := if l then (-1, mgr)
                    else let '(r, mgr) := mgr_handle mgr MOVE_RIGHT in
                         ((if r then 1 else 0), mgr) in
  let moved := if negb (dx =? 0) then
                 let t := with_x moved (x moved - dx) in
                 if can_put_onto t pf then t else moved
               else moved in
  let '(c, mgr) := mgr_handle mgr ROTATE_CW in
  let '(rot, mgr) := if c then ((true, true), mgr)
                     else let '(cc, mgr) := mgr_handle mgr ROTATE_CCW in
                          ((if cc then (true, false) else (false, false)), mgr) in
  moved ← (if fst rot then
             ro ← logic_rotate (logic cfg) (snd rot) moved pf;
             Ret (match ro with Some rotated => rotated | None => moved end)
           else Ret moved);
  num ← droppable_rows moved pf;
  let '(moved, gc, ldc) :=
    if (num =? 0)%nat then (moved, 0%Q, ldc)
    else if Qle_bool 1 gc then
      (with_y moved (y moved - Z.of_nat (Nat.min num (q_as_usize gc))), 0%Q, 0%N)
    else (moved, gc, ldc) in
  Ret (StPlay gc ldc held, set_falling_piece (set_input_mgr data mgr) (Some moved), Ok None).

(** [GameStatePlay::update]: returns the mutated state object, the data
    and the transition. *)
Definition play_update (cfg : GameConfig) (gc : Q) (ldc : N) (held : bool)
  (data : GameStateData) (input : Z) : outcome (GameState * GameStateData * Transition) :=
  let mgr := mgr_update (input_mgr data) input in
  fp ← unwrap (falling_piece data);
  let pf := playfield data in
  num ← droppable_rows fp pf;
  if input_contains input HARD_DROP then
    Ret (StPlay gc ldc held,
         set_falling_piece (set_input_mgr data mgr) (Some (with_y fp (y fp - Z.of_nat num))),
         Ok (Some StLock))
  else
  let '(h, mgr) := if negb held then mgr_handle mgr HOLD else (false, mgr) in
  if h then
    let spawn (np : P) (rest : list P) :=
      sfp ← spawn_piece (logic cfg) np (num_cols (grid pf)) (num_rows (grid pf)) (visible_rows pf);
      let data := mkGameStateData pf (falling_piece data) (hold_piece data) rest mgr in
      if negb (can_put_onto sfp pf) then
        Ret (StPlay gc ldc true, data, Ok (Some (StGameOver 0)))
      else
        Ret (StPlay 0 0 true,
             mkGameStateData pf (Some sfp) (Some (piece fp)) rest mgr, Ok None) in
    match hold_piece data with
    | Some p => spawn p (next_pieces data)
    | None =>
        match next_pieces data with
        | [] => Ret (StPlay gc ldc true, set_input_mgr data mgr, Err "no next pieces")
        | p :: rest => spawn p rest
        end
    end
  else
  if (num =? 0)%nat then
    ldc ← u8_incr ldc;
    let should_lock := (lock_delay (params cfg) <? ldc)%N
                       || (lock_delay_cancel (params cfg) && input_contains input SOFT_DROP) in
    if should_lock then Ret (StPlay 0 ldc held, set_input_mgr data mgr, Ok (Some StLock))
    else play_move cfg 0 ldc held data mgr fp
  else if input_contains input FIRM_DROP then
    Ret (StPlay 0 0 held,
         set_falling_piece (set_input_mgr data mgr) (Some (with_y fp (y fp - Z.of_nat num))),
         Ok None)
  else
    let gc := (gc + gravity (params cfg))%Q in
    let gc := if input_contains input SOFT_DROP then (gc + soft_drop_gravity (params cfg))%Q else gc in
    play_move cfg gc ldc held data mgr fp.

(** [GameStateLock::lock]. *)
Definition lock (cfg : GameConfig) (data : GameStateData) : outcome (GameStateData * Transition) :=
  fp ← unwrap (falling_piece data);
  let r := loss_check (loss_condition (params cfg)) fp (playfield data) in
  if negb (flags_is_empty r) then Ret (data, Ok (Some (StGameOver r)))
  else
    let '(pf, r) := put_onto fp (playfield data) in
    let data := set_playfield data pf in
    if negb (flags_is_empty r) then Panic "assertion failed: r.is_empty()"
    else if existsb (is_row_filled (grid pf)) (seq 0 (visible_rows pf))
    then Ret (data, Ok (Some (StLineClear 0)))
    else Ret (data, Ok (Some StSpawnPiece)).

Definition line_clear_update (cfg : GameConfig) (counter : N) (data : GameStateData)
  : outcome (GameState * GameStateData * Transition) :=
  let data := if (counter =? 0)%N then
                let pf := playfield data in
                set_playfield data
                  (mkPlayfield (visible_rows pf) (fst (pluck_filled_rows (grid pf) (Some Empty))))
              else data in
  counter ← u8_incr counter;
  if (counter <=? line_clear_delay (params cfg))%N then Ret (StLineClear counter, data, Ok None)
  else Ret (StLineClear counter, data, Ok (Some StSpawnPiece)).

(** [GameState::update] dispatched on the state. *)
Definition state_update (cfg : GameConfig) (s : GameState) (data : GameStateData) (input : Z)
  : outcome (GameState * GameStateData * Transition) :=
  match s with
  | StInit =>
      Ret (s, data, Ok (Some (match falling_piece data with
                              | Some _ => StPlay 0 0 false
                              | None => StSpawnPiece
                              end)))
  | StPlay gc ldc held => play_update cfg gc ldc held data input
  | StLock => r ← lock cfg data; let '(data, t) := r in Ret (s, data, t)
  | StLineClear counter => line_clear_update cfg counter data
  | _ => Ret (s, data, Ok None)
  end.

(** [GameState::enter] dispatched on the state. *)
Definition state_enter (s : GameState) (data : GameStateData) : Transition :=
  match s with
  | StPlay _ _ _ | StLock =>
      match falling_piece data with
      | None => Err "falling_piece should not be none"
      | Some _ => Ok None
      end
  | _ => Ok None
  end.

Record Game := mkGame {
  config : GameConfig;
  data : GameStateData;
  game_state : GameState;
}.

Definition Game_new (cfg : GameConfig) (d : GameStateData) : Game := mkGame cfg d StInit.

Definition current_state (g : Game) : GameStateId := id (game_state g).

(** [Game::handle_result]; the recursion goes through [enter], which
    never returns a successor, so two levels of fuel are enough. *)
Fixpoint handle_result (fuel : nat) (g : Game) (r : Transition) : outcome Game :=
  match fuel with
  | O => Diverge
  | S fuel' =>
      match r with
      | Ok None => Ret g
      | Ok (Some next) =>
          let g := mkGame (config g) (data g) next in
          handle_result fuel' g (state_enter next (data g))
      | Err reason => Ret (mkGame (config g) (data g) (StError reason))
      end
  end.

Definition update (g : Game) (input : Z) : outcome Game :=
  r ← state_update (config g) (game_state g) (data g) input;
  let '(s, d, t) := r in
  handle_result 3 (mkGame (config g) d s) t.

Fixpoint run (g : Game) (inputs : list Z) : outcome Game :=
  match inputs with
  | [] => Ret g
  | i :: is => g ← update g i; run g is
  end.

End WithPiece.
Arguments FallingPiece P : clear implicits.
Arguments Playfield P : clear implicits.
End Common.

(** ** [mino_core::tetro] ([src/mino_core/src/tetro.rs]) *)
Module Tetro.
Import Grid Common.

Inductive Piece := I | T | O | S | Z | J | L.

Definition piece_eqb (a b : Piece) : bool :=
  match a, b with
  | I, I | T, T | O, O | S, S | Z, Z | J, J | L, L => true
  | _, _ => false
  end.

Definition PieceGrid := Grid (Cell Piece).

(** [gen_piece_definitions]: each mask is written top row first and then
    [reverse_rows]; the four grids are the mask and its three rotations. *)
Definition mask (cols rows : nat) (cs : list (Cell Piece)) : PieceGrid :=
  reverse_rows (Grid.new cols rows cs).

Definition grid_i : PieceGrid :=
  let e := Empty in let i := Block I in
  mask 5 5 [e; e; e; e; e;  e; e; e; e; e;  e; i; i; i; i;  e; e; e; e; e;  e; e; e; e; e].
Definition grid_t : PieceGrid :=
  let e := Empty in let t := Block T in mask 3 3 [e; t; e;  t; t; t;  e; e; e].
Definition grid_o : PieceGrid :=
  let e := Empty in let o := Block O in mask 3 3 [e; o; o;  e; o; o;  e; e; e].
Definition grid_s : PieceGrid :=
  let e := Empty in let s := Block S in mask 3 3 [e; s; s;  s; s; e;  e; e; e].
Definition grid_z : PieceGrid :=
  let e := Empty in let z := Block Z in mask 3 3 [z; z; e;  e; z; z;  e; e; e].
Definition grid_j : PieceGrid :=
  let e := Empty in let j := Block J in mask 3 3 [j; e; e;  j; j; j;  e; e; e].
Definition grid_l : PieceGrid :=
  let e := Empty in let l := Block L in mask 3 3 [e; e; l;  l; l; l;  e; e; e].

Definition definition_of (g : PieceGrid) : list PieceGrid := [g; rotate1 g; rotate2 g; rotate3 g].

Definition PIECE_DEFINITIONS : list (list PieceGrid) :=
  map definition_of [grid_i; grid_t; grid_o; grid_s; grid_z; grid_j; grid_l].

Definition piece_index (p : Piece) : nat :=
  match p with I => 0 | T => 1 | O => 2 | S => 3 | Z => 4 | J => 5 | L => 6 end%nat.

(** [PIECE_DEFINITIONS[p as usize].grids[rotation as usize]], with both
    indices in range. *)
#[global] Instance tetro_piece : Common.Piece Piece :=
  fun p r => nth (Z.to_nat (rotation_index r)) (nth (piece_index p) PIECE_DEFINITIONS []) (Grid.new 0 0 []).

Definition OFFSET_DATA_I : list (list (BinNums.Z * BinNums.Z)) :=
  [ [(0, 0); (-1, 0); (2, 0); (-1, 0); (2, 0)];
    [(-1, 0); (0, 0); (0, 0); (0, 1); (0, -2)];
    [(-1, 1); (1, 1); (-2, 1); (1, 0); (-2, 0)];
    [(0, 1); (0, 1); (0, 1); (0, -1); (0, 2)] ].
Definition OFFSET_DATA_O : list (list (BinNums.Z * BinNums.Z)) :=
  [ [(0, 0)]; [(0, -1)]; [(-1, -1)]; [(-1, 0)] ].
Definition OFFSET_DATA_JLSTZ : list (list (BinNums.Z * BinNums.Z)) :=
  [ [(0, 0); (0, 0); (0, 0); (0, 0); (0, 0)];
    [(0, 0); (1, 0); (1, -1); (0, 2); (1, 2)];
    [(0, 0); (0, 0); (0, 0); (0, 0); (0, 0)];
    [(0, 0); (-1, 0); (-1, -1); (0, 2); (-1, 2)] ].

Definition offset_data (p : Piece) : list (list (BinNums.Z * BinNums.Z)) :=
  match p with I => OFFSET_DATA_I | O => OFFSET_DATA_O | _ => OFFSET_DATA_JLSTZ end.

(** [offset_data[rotation as usize]]: the arrays have four entries. *)
Definition offsets_of (p : Piece) (r : Rotation) : list (BinNums.Z * BinNums.Z) :=
  nth (Z.to_nat (rotation_index r)) (offset_data p) [].

(** Modelled from the spec: [TSpin], declared in the version of
    [common.rs] that [tetro.rs] was written against (it is not among the
    sources); [tetro.rs] uses its variants [None], [Mini] and [Normal]. *)
Inductive TSpin := TSpinNone | TSpinMini | TSpinNormal.

Definition FP := FallingPiece Piece.
Definition PF := Playfield Piece.

(** "outside or block" test of [rotate]. *)
Definition outside_or_block (pf : PF) (x y : BinNums.Z) : bool :=
  (x <? 0) || (y <? 0)
  || negb (is_valid_cell_index (grid pf) (Z.to_nat x) (Z.to_nat y))
  || negb (is_empty (cell (grid pf) (Z.to_nat x) (Z.to_nat y))).

(** The T-Spin test of [rotate], run on the accepted candidate. *)
Definition tspin_of (fp : FP) (pf : PF) : TSpin :=
  if piece_eqb (piece fp) T then
    let center := (x fp + 1, y fp + 1) in
    let n := fold_left (fun n dy =>
               fold_left (fun n dx =>
                   if outside_or_block pf (fst center + dx) (snd center + dy) then (n + 1)%nat else n)
                 [-1; 1] n) [-1; 1] 0%nat in
    if (3 <=? n)%nat then
      let d := match rotation fp with
               | Cw0 => (0, -1) | Cw90 => (-1, 0) | Cw180 => (0, 1) | Cw270 => (1, 0)
               end in
      if outside_or_block pf (fst center + fst d) (snd center + snd d) then
        if (n =? 4)%nat then TSpinNormal else TSpinMini
      else TSpinNormal
    else TSpinNone
  else TSpinNone.

(** [offsets2[i]]: out of range would panic. *)
Definition vec_get {A} (l : list A) (i : nat) : outcome A :=
  match l !! i with
  | Some a => Ret a
  | None => Panic "index out of bounds"
  end.

(** The [for i in 0..offsets1.len()] loop of [rotate]. *)
Fixpoint kick_loop (fp : FP) (pf : PF) (offsets1 offsets2 : list (BinNums.Z * BinNums.Z)) (i : nat)
  (rest : list (BinNums.Z * BinNums.Z)) : outcome (option (FP * TSpin)) :=
  match rest with
  | [] => Ret None
  | o1 :: rest' =>
      o2 ← vec_get offsets2 i;
      let cand := mkFallingPiece (piece fp) (x fp + (fst o1 - fst o2))
                    (y fp + (snd o1 - snd o2)) (rotation fp) in
      if can_put_onto cand pf then Ret (Some (cand, tspin_of cand pf))
      else kick_loop fp pf offsets1 offsets2 (Nat.succ i) rest'
  end.

(** [WorldRuleLogic::rotate]. *)
Definition rotate (is_cw : bool) (falling_piece : FP) (pf : PF) : outcome (option (FP * TSpin)) :=
  r ← (if is_cw then Common.cw (rotation falling_piece) else Common.ccw (rotation falling_piece));
  let fp := mkFallingPiece (piece falling_piece) (x falling_piece) (y falling_piece) r in
  let offsets1 := offsets_of (piece fp) (rotation falling_piece) in
  let offsets2 := offsets_of (piece fp) (rotation fp) in
  kick_loop fp pf offsets1 offsets2 0 offsets1.

(** [WorldRuleLogic::spawn_piece]; [usize] subtraction panics on
    underflow. *)
Definition spawn_piece (p : Piece) (pf : PF) : outcome FP :=
  let g := piece_grid p Cw0 in
  let top_pad := top_padding g in
  if (num_cols (grid pf) <? num_cols g)%nat then Panic "attempt to subtract with overflow"
  else
  let fp := mkFallingPiece p (Z.quot (Z.of_nat (num_cols (grid pf) - num_cols g)) 2)
              (Z.of_nat (visible_rows pf) - Z.of_nat (num_rows g - top_pad) + 1) Cw0 in
  if negb (can_put_onto fp pf) then Ret (with_y fp (y fp + 1)) else Ret fp.

(** The [WorldRuleLogic] plugged into the [GameLogic] trait of
    [common.rs], whose methods see only the playfield's dimensions for
    spawning and no T-Spin tag for rotating. *)
Definition world_rule_logic : GameLogic :=
  mkGameLogic
    (fun p cols rows vis =>
       spawn_piece p (mkPlayfield vis (Grid.new cols rows [])))
    (fun is_cw fp pf => r ← rotate is_cw fp pf; Ret (option_map fst r)).

(** [GameParams::default], with the [f32] constants as rationals. *)
Definition default_params : GameParams :=
  mkGameParams (1667 # 10000) 1 60 true 11 2 40 40 (Z.lor LOCK_OUT GARBAGE_OUT).

Definition empty_playfield : PF := mkPlayfield 20 (Grid.new 10 40 []).

End Tetro.

(** ** Driving one counter: the raw bit held, [handle] after each [update] *)
Module Debounce.
Import InputCounter.

Definition frame (c : InputCounter) : bool * InputCounter := handle (update c true).

(** The counter after [k] frames. *)
Fixpoint after_frames (c : InputCounter) (k : nat) : InputCounter :=
  match k with
  | O => c
  | S k' => snd (frame (after_frames c k'))
  end.

(** What [handle] returns on frame [k] (frames are numbered from 1). *)
Definition handled_on_frame (c : InputCounter) (k : nat) : bool :=
  fst (frame (after_frames c (k - 1))).

Definition c23 : InputCounter := InputCounter.new 2%N 3%N.

(** A consumer's frames: [update(active)], then [handle()] when asked. *)
Fixpoint drive (c : InputCounter) (acts : list (bool * bool)) : InputCounter :=
  match acts with
  | [] => c
  | (active, call_handle) :: acts' =>
      let c := update c active in
      drive (if call_handle then snd (handle c) else c) acts'
  end.

End Debounce.

(** ** The rest of the [grid] crate: [map] and [num_filled_rows] *)
Module GridMore.
Import Grid.
Section GridOps.
Context {C : Type} `{Default C} `{IsEmpty C}.

(** [Grid::map]: [cb] applied to every cell, row by row. *)
Definition map (g : Grid C) (cb : C -> C) : Grid C :=
  fold_left (fun g y =>
      fold_left (fun g x => set_cell g x y (cb (cell g x y))) (seq 0 (num_cols g)) g)
    (seq 0 (num_rows g)) g.

Definition num_filled_rows (g : Grid C) : nat :=
  fold_left (fun n y => if is_row_filled g y then S n else n) (seq 0 (num_rows g)) 0%nat.

End GridOps.
End GridMore.

(** ** [InputManager::can_handle] *)
Module InputManagerMore.
Import InputCounter.

(** [self.inputs.get(&input)]. *)
Fixpoint get (m : InputManager) (input : Z) : option InputCounter :=
  match m with
  | [] => None
  | (i, c) :: m' => if i =? input then Some c else get m' input
  end.

Definition mgr_can_handle (m : InputManager) (input : Z) : bool :=
  match get m input with
  | Some c => can_handle c
  | None => false
  end.

End InputManagerMore.

(** ** [INPUTS] and [InputIterator] of [common.rs] *)
Module InputIter.
Import Common.

Definition INPUTS : list Z :=
  [HARD_DROP; SOFT_DROP; FIRM_DROP; MOVE_LEFT; MOVE_RIGHT; ROTATE_CW; ROTATE_CCW; HOLD].

Record InputIterator := mkInputIterator {
  input : Z;
  next_idx : nat;
}.

Definition into_iter (i : Z) : InputIterator := mkInputIterator i 0.

(** The [while self.next_idx < INPUTS.len()] loop of [next], over the
    entries [INPUTS[idx..]]: it returns without advancing [next_idx]. *)
Fixpoint next_loop (i : Z) (idx : nat) (rest : list Z) : option Z * nat :=
  match rest with
  | [] => (None, idx)
  | f :: rest' => if input_contains i f then (Some f, idx) else next_loop i (S idx) rest'
  end.

Definition next (it : InputIterator) : option Z * InputIterator :=
  let '(o, idx) := next_loop (input it) (next_idx it) (drop (next_idx it) INPUTS) in
  (o, mkInputIterator (input it) idx).

(** The first [k] results of calling [next] repeatedly. *)
Fixpoint take_items (it : InputIterator) (k : nat) : list (option Z) :=
  match k with
  | O => []
  | S k' => let '(o, it') := next it in o :: take_items it' k'
  end.

End InputIter.

(** ** Auxiliary definitions of the laws of the code proved below *)
Module LawDefs.
Import Grid InputCounter.

(** The cells of a [cols x rows] grid in the order of the double loops. *)
Definition pairs (cols rows : nat) : list (nat * nat) :=
  flat_map (fun y => List.map (fun x => (x, y)) (seq 0 cols)) (seq 0 rows).

(** The result of [check_overlay] from its two flags. *)
Definition bits_of (b1 b2 : bool) : Z := Z.lor (if b1 then OVERFLOW else 0) (if b2 then OVERLAP else 0).

(** The cell of the sub grid that [overlay] at [(x, y)] writes onto the
    grid cell [(px, py)]. *)
Definition overlay_src (x y : Z) (px py : nat) : nat * nat :=
  (Z.to_nat (Z.of_nat px - x), Z.to_nat (Z.of_nat py - y)).

(** The [opt_first_delay] that [InputCounter::new] stores. *)
Definition eff_delay (r d : N) : N := if (d =? 0)%N then r else d.

(** The invariant of a counter made by [new] and driven by any sequence of
    [update] and [handle] calls. *)
Definition counter_inv (r d' : N) (c : InputCounter) : Prop :=
  (opt_repeat c = r /\ opt_first_delay c = d' /\
   (state c = Inactive -> n c = 0) /\
   (state c = Delay -> r <> 0 /\ n c < d') /\
   (state c = Repeat -> r <> 0 /\ n c < r))%N.

End LawDefs.

(** ** The T-Spin classification as the spec words it *)
Module TSpinSpec.
Import Grid Common Tetro.

(** A playfield cell counts as filled when it lies outside the grid or
    holds a non-empty cell. *)
Definition spec_filled (pf : PF) (cx cy : BinNums.Z) : bool :=
  if (0 <=? cx) && (cx <? Z.of_nat (num_cols (grid pf)))
     && (0 <=? cy) && (cy <? Z.of_nat (num_rows (grid pf)))
  then negb (is_empty (cell (grid pf) (Z.to_nat cx) (Z.to_nat cy)))
  else true.

(** The unit step from the centre of T's 3x3 grid towards its nub: the
    neighbour of the centre that holds a block while the opposite
    neighbour is empty. *)
Definition t_pointing (r : Rotation) : BinNums.Z * BinNums.Z :=
  let g := piece_grid T r in
  let at_ d := is_empty (cell g (Z.to_nat (1 + fst d)) (Z.to_nat (1 + snd d))) in
  let opp d := is_empty (cell g (Z.to_nat (1 - fst d)) (Z.to_nat (1 - snd d))) in
  match find (fun d => negb (at_ d) && opp d) [(0, 1); (1, 0); (0, -1); (-1, 0)] with
  | Some d => d
  | None => (0, 0)
  end.

(** The four diagonal corners of the 3x3 box around the centre. *)
Definition corners (cx cy : BinNums.Z) : list (BinNums.Z * BinNums.Z) :=
  [(cx + -1, cy + -1); (cx + 1, cy + -1); (cx + -1, cy + 1); (cx + 1, cy + 1)].

(** The tag of an accepted rotation of a piece of kind [p] that ended at
    [fp']. *)
Definition spec_tspin (p : Piece) (fp' : FP) (pf : PF) : TSpin :=
  match p with
  | T =>
      let cx := x fp' + 1 in
      let cy := y fp' + 1 in
      let n := length (List.filter (fun c => spec_filled pf (fst c) (snd c)) (corners cx cy)) in
      if (n <? 3)%nat then TSpinNone
      else
        let d := t_pointing (rotation fp') in
        if spec_filled pf (cx - fst d) (cy - snd d) then
          if (n =? 4)%nat then TSpinNormal else TSpinMini
        else TSpinNormal
  | _ => TSpinNone
  end.

End TSpinSpec.

(** ** Sample inputs *)
Module Samples.
Import Grid Common Tetro.

Definition g2x2 : Grid.Grid N := Grid.new 2 2 [].
Definition one_block : Grid.Grid N := Grid.new 1 1 [1%N].
Definition no_block : Grid.Grid N := Grid.new 1 1 [0%N].

(** A T piece in the spawn rotation at column 3, row 10 of an empty
    10x40 playfield with 20 visible rows. *)
Definition fp0 : FP := mkFallingPiece T 3 10 Cw0.

(** The same piece resting on the floor: its blocks occupy rows 0 and 1. *)
Definition resting : FP := mkFallingPiece T 3 (-1) Cw0.

(** The empty playfield with garbage at [(3, 0)], [(5, 0)] and [(3, 2)]:
    three corners around [(4, 1)], the centre of a T at [(3, 0)]. *)
Definition tspin_field : PF :=
  mkPlayfield 20 (fold_left (fun g (p : nat * nat) => set_cell g (fst p) (snd p) Garbage)
                    [(3, 0); (5, 0); (3, 2)]%nat (Grid.new 10 40 [])).

Definition fp_tspin : FP := mkFallingPiece T 3 0 Cw0.

Definition cfg0 : GameConfig :=
  mkGameConfig world_rule_logic
    (mkGameParams 0 1 60 true 11 2 40 40 (Z.lor LOCK_OUT GARBAGE_OUT)).

Definition data0 : GameStateData :=
  mkGameStateData empty_playfield (Some fp0) None [] (new_input_manager 11 2).

Definition game0 : Game := Game_new cfg0 data0.

(** The non-overlap invariant at a state boundary: in [Play] the falling
    piece is present and fits the playfield. *)
Definition play_piece_fits (g : Game) : bool :=
  match game_state g with
  | StPlay _ _ _ =>
      match falling_piece (data g) with
      | Some fp => can_put_onto fp (playfield (data g))
      | None => false
      end
  | _ => true
  end.

Definition is_panic {A} (o : outcome A) : bool :=
  match o with Panic _ => true | _ => false end.

End Samples.


(** ** Lemmas on the grid loops *)
Module GridFacts.
Import Grid.

Section Folds.
Context {A : Type}.

Lemma fold2_preserve (f : A -> nat -> nat -> A) (I : A -> Prop) rows cols a :
  I a -> (forall a sx sy, (sx < cols)%nat -> (sy < rows)%nat -> I a -> I (f a sx sy)) ->
  I (fold_left (fun a sy => fold_left (fun a sx => f a sx sy) (seq 0 cols) a) (seq 0 rows) a).
Proof.
  intros Ha Hf.
  assert (Hys : forall sy, In sy (seq 0 rows) -> (sy < rows)%nat)
    by (intros sy Hin; apply in_seq in Hin; lia).
  assert (Hxs : forall sx, In sx (seq 0 cols) -> (sx < cols)%nat)
    by (intros sx Hin; apply in_seq in Hin; lia).
  revert a Ha Hys. generalize (seq 0 rows) as ys.
  induction ys as [|sy ys IH]; intros a Ha Hys; simpl; [exact Ha|].
  apply IH; [|intros; apply Hys; simpl; auto].
  assert (Hsy : (sy < rows)%nat) by (apply Hys; simpl; auto).
  revert a Ha Hxs. generalize (seq 0 cols) as xs.
  induction xs as [|sx xs IHx]; intros a Ha Hxs; simpl; [exact Ha|].
  apply IHx; [|intros; apply Hxs; simpl; auto].
  apply Hf; auto. apply Hxs; simpl; auto.
Qed.

Lemma fold_establish {B} (f : A -> B -> A) (I P : A -> Prop) (l : list B) a b0 :
  In b0 l -> I a ->
  (forall a b, I a -> I (f a b)) ->
  (forall a b, I a -> P a -> P (f a b)) ->
  (forall a, I a -> P (f a b0)) ->
  P (fold_left f l a).
Proof.
  intros Hin Ha HI HP H0. revert a Ha.
  induction l as [|b l IH]; intros a Ha; simpl in *; [contradiction|].
  destruct Hin as [<-|Hin].
  - assert (Hpres : forall a', I a' /\ P a' -> I (fold_left f l a') /\ P (fold_left f l a')).
    { clear IH. induction l as [|b' l IHl]; intros a' [Ia Pa]; simpl; auto. }
    apply Hpres. auto.
  - apply IH; auto.
Qed.

Lemma fold2_establish (f : A -> nat -> nat -> A) (I P : A -> Prop) rows cols a sx0 sy0 :
  (sx0 < cols)%nat -> (sy0 < rows)%nat -> I a ->
  (forall a sx sy, I a -> I (f a sx sy)) ->
  (forall a sx sy, I a -> P a -> P (f a sx sy)) ->
  (forall a, I a -> P (f a sx0 sy0)) ->
  P (fold_left (fun a sy => fold_left (fun a sx => f a sx sy) (seq 0 cols) a) (seq 0 rows) a).
Proof.
  intros Hx Hy Ha HI HP H0.
  assert (HIin : forall sy a, I a -> I (fold_left (fun a sx => f a sx sy) (seq 0 cols) a)).
  { intros sy a' Ia'. revert a' Ia'. generalize (seq 0 cols) as xs.
    induction xs; intros; simpl; auto. }
  apply (fold_establish _ I P _ a sy0).
  - apply in_seq. lia.
  - exact Ha.
  - intros; apply HIin; auto.
  - intros a' sy Ia' Pa'. revert a' Ia' Pa'. generalize (seq 0 cols) as xs.
    induction xs; intros; simpl; auto.
  - intros a' Ia'. apply (fold_establish _ I P _ a' sx0).
    + apply in_seq. lia.
    + exact Ia'.
    + intros; auto.
    + intros; auto.
    + auto.
Qed.

End Folds.

Lemma lor_nonzero r b : r <> 0 -> Z.lor r b <> 0.
Proof. intros H E. apply Z.lor_eq_0_iff in E. tauto. Qed.

Lemma flags_contains_lor_self r f : flags_contains (Z.lor r f) f = true.
Proof.
  unfold flags_contains. apply Z.eqb_eq. apply Z.bits_inj'. intros n _.
  rewrite Z.land_spec, Z.lor_spec. destruct (Z.testbit r n), (Z.testbit f n); reflexivity.
Qed.

Lemma flags_contains_lor r b f : flags_contains r f = true -> flags_contains (Z.lor r b) f = true.
Proof.
  unfold flags_contains. intros H. apply Z.eqb_eq in H. apply Z.eqb_eq.
  apply Z.bits_inj'. intros n _. pose proof (f_equal (fun z => Z.testbit z n) H) as Hn.
  simpl in Hn. rewrite Z.land_spec in *. rewrite Z.lor_spec.
  destruct (Z.testbit r n), (Z.testbit b n), (Z.testbit f n); simpl in *; congruence.
Qed.

Section Cells.
Context {C : Type} `{Default C} `{IsEmpty C}.

Lemma set_cell_dims (g : Grid C) x y c :
  num_rows (set_cell g x y c) = num_rows g /\ num_cols (set_cell g x y c) = num_cols g.
Proof. split; reflexivity. Qed.

Lemma set_cell_wf (g : Grid C) x y c : wf g -> wf (set_cell g x y c).
Proof. unfold wf, set_cell; simpl. rewrite length_insert. auto. Qed.

Lemma cell_set_cell (g : Grid C) x y c px py :
  wf g -> (x < num_cols g)%nat -> (y < num_rows g)%nat ->
  cell (set_cell g x y c) px py =
  if decide (cell_index g x y = cell_index g px py) then c else cell g px py.
Proof.
  intros Hwf Hx Hy. unfold cell, set_cell, cell_index in *; simpl.
  case_decide as Heq.
  - rewrite <- Heq. rewrite list_lookup_insert_eq; [reflexivity|].
    unfold wf in Hwf. rewrite Hwf. nia.
  - rewrite list_lookup_insert_ne by exact Heq. reflexivity.
Qed.

Lemma cell_index_inj (g : Grid C) x y px py :
  (x < num_cols g)%nat -> (px < num_cols g)%nat ->
  cell_index g x y = cell_index g px py -> x = px /\ y = py.
Proof.
  unfold cell_index. intros Hx Hpx E.
  assert (y = py) by nia. subst. split; [lia|reflexivity].
Qed.

(** Every non-empty sub cell is in bounds and lands on an empty cell once
    [check_overlay] reports nothing. *)
Lemma check_overlay_empty_inv (g sub : Grid C) x y sx sy :
  check_overlay g x y sub = 0 ->
  (sx < num_cols sub)%nat -> (sy < num_rows sub)%nat ->
  is_empty (cell sub sx sy) = false ->
  0 <= x + Z.of_nat sx < Z.of_nat (num_cols g) /\
  0 <= y + Z.of_nat sy < Z.of_nat (num_rows g) /\
  is_empty (cell g (Z.to_nat (x + Z.of_nat sx)) (Z.to_nat (y + Z.of_nat sy))) = true.
Proof.
  intros Hc Hx Hy Hne.
  destruct (decide (0 <= x + Z.of_nat sx < Z.of_nat (num_cols g) /\
                    0 <= y + Z.of_nat sy < Z.of_nat (num_rows g) /\
                    is_empty (cell g (Z.to_nat (x + Z.of_nat sx))
                                (Z.to_nat (y + Z.of_nat sy))) = true)) as [D|D];
    [exact D|exfalso].
  assert (Hnz : check_overlay g x y sub <> 0); [|contradiction].
  unfold check_overlay.
  apply (fold2_establish (fun r sx sy => check_overlay_cell g sub x y r sx sy)
           (fun _ => True) (fun r => r <> 0) _ _ 0 sx sy); auto.
  - intros r sx' sy' _ Hr. unfold check_overlay_cell.
    destruct (is_empty (cell sub sx' sy')); [exact Hr|].
    destruct (_ || _ || _ || _); [apply lor_nonzero; exact Hr|].
    destruct (negb _); [apply lor_nonzero; exact Hr|exact Hr].
  - intros r _. unfold check_overlay_cell. rewrite Hne.
    destruct (x + Z.of_nat sx <? 0) eqn:E1; simpl;
      [intro E; apply Z.lor_eq_0_iff in E; unfold OVERFLOW in E; lia|].
    destruct (Z.of_nat (num_cols g) <=? x + Z.of_nat sx) eqn:E2; simpl;
      [intro E; apply Z.lor_eq_0_iff in E; unfold OVERFLOW in E; lia|].
    destruct (y + Z.of_nat sy <? 0) eqn:E3; simpl;
      [intro E; apply Z.lor_eq_0_iff in E; unfold OVERFLOW in E; lia|].
    destruct (Z.of_nat (num_rows g) <=? y + Z.of_nat sy) eqn:E4; simpl;
      [intro E; apply Z.lor_eq_0_iff in E; unfold OVERFLOW in E; lia|].
    destruct (is_empty (cell g _ _)) eqn:E5; simpl.
    + exfalso. apply D. apply Z.ltb_ge in E1, E3. apply Z.leb_gt in E2, E4. lia.
    + intro E; apply Z.lor_eq_0_iff in E; unfold OVERLAP in E; lia.
Qed.


Lemma out_of_bounds_false a b c d :
  ((a <? 0) || (c <=? a) || (b <? 0) || (d <=? b)) = false <->
  (0 <= a < c /\ 0 <= b < d).
Proof.
  rewrite !orb_false_iff, !Z.ltb_ge, !Z.leb_gt. lia.
Qed.

Lemma overlay_cell_inv (sub g : Grid C) x y r sx sy :
  wf g ->
  wf (fst (overlay_cell sub x y (g, r) sx sy)) /\
  num_cols (fst (overlay_cell sub x y (g, r) sx sy)) = num_cols g /\
  num_rows (fst (overlay_cell sub x y (g, r) sx sy)) = num_rows g.
Proof.
  intros Hwf. unfold overlay_cell.
  destruct (is_empty (cell sub sx sy)); [simpl; auto|].
  destruct (_ || _ || _ || _); [simpl; auto|].
  destruct (negb _); simpl; auto using set_cell_wf.
Qed.

Lemma overlay_dims (g sub : Grid C) x y :
  wf g ->
  wf (fst (overlay g x y sub)) /\ num_cols (fst (overlay g x y sub)) = num_cols g /\
  num_rows (fst (overlay g x y sub)) = num_rows g.
Proof.
  intros Hwf. unfold overlay.
  apply (fold2_preserve _ (fun st => wf (fst st) /\ num_cols (fst st) = num_cols g /\
                                     num_rows (fst st) = num_rows g)); [simpl; auto|].
  intros [g' r] sx sy _ _ [W [Ec Er]].
  destruct (overlay_cell_inv sub g' x y r sx sy W) as (W' & Ec' & Er').
  cbn beta in *. change (fst (g', r)) with g' in *.
  split; [exact W'|]. split; congruence.
Qed.

(** After [overlay], the target of an in-bounds non-empty sub cell holds a
    non-empty cell. *)
Lemma overlay_target_nonempty (g sub : Grid C) x y sx sy :
  wf g -> (sx < num_cols sub)%nat -> (sy < num_rows sub)%nat ->
  is_empty (cell sub sx sy) = false ->
  0 <= x + Z.of_nat sx < Z.of_nat (num_cols g) ->
  0 <= y + Z.of_nat sy < Z.of_nat (num_rows g) ->
  is_empty (cell (fst (overlay g x y sub))
               (Z.to_nat (x + Z.of_nat sx)) (Z.to_nat (y + Z.of_nat sy))) = false.
Proof.
  intros Hwf Hx Hy Hne Bx By.
  set (px := Z.to_nat (x + Z.of_nat sx)). set (py := Z.to_nat (y + Z.of_nat sy)).
  assert (Hpx : (px < num_cols g)%nat) by (subst px; lia).
  assert (Hpy : (py < num_rows g)%nat) by (subst py; lia).
  unfold overlay.
  apply (fold2_establish (fun st sx sy => overlay_cell sub x y st sx sy)
           (fun st => wf (fst st) /\ num_cols (fst st) = num_cols g /\
                      num_rows (fst st) = num_rows g)
           (fun st => is_empty (cell (fst st) px py) = false) _ _ _ sx sy); auto.
  - intros [g' r] sx' sy' [W [Ec Er]].
    destruct (overlay_cell_inv sub g' x y r sx' sy' W) as (W' & Ec' & Er').
    change (fst (g', r)) with g' in *.
    split; [exact W'|]. split; congruence.
  - intros [g' r] sx' sy' [W [Ec Er]] HP. simpl in HP, W, Ec, Er. unfold overlay_cell.
    destruct (is_empty (cell sub sx' sy')) eqn:Es; [exact HP|].
    destruct (_ || _ || _ || _) eqn:Eb; [exact HP|].
    apply out_of_bounds_false in Eb.
    destruct (negb _); [exact HP|]. simpl.
    rewrite cell_set_cell by (auto; lia).
    case_decide; [exact Es|exact HP].
  - intros [g' r] [W [Ec Er]]. simpl in W, Ec, Er. unfold overlay_cell. rewrite Hne.
    rewrite (proj2 (out_of_bounds_false _ _ _ _)) by (rewrite Ec, Er; lia).
    fold px py.
    destruct (is_empty (cell g' px py)) eqn:Ec'; simpl.
    + rewrite cell_set_cell by (auto; lia). case_decide; [exact Hne|congruence].
    + exact Ec'.
Qed.

End Cells.
End GridFacts.

Module GridFacts2.
Import Grid GridFacts.
Section Cells.
Context {C : Type} `{Default C} `{IsEmpty C}.

Lemma check_overlay_cell_nonzero (g sub : Grid C) x y r sx sy :
  r <> 0 -> check_overlay_cell g sub x y r sx sy <> 0.
Proof.
  intros Hr. unfold check_overlay_cell.
  destruct (is_empty (cell sub sx sy)); [exact Hr|].
  destruct (_ || _ || _ || _); [apply lor_nonzero; exact Hr|].
  destruct (negb _); [apply lor_nonzero; exact Hr|exact Hr].
Qed.

Lemma check_overlay_cell_contains (g sub : Grid C) x y r sx sy f :
  flags_contains r f = true -> flags_contains (check_overlay_cell g sub x y r sx sy) f = true.
Proof.
  intros Hr. unfold check_overlay_cell.
  destruct (is_empty (cell sub sx sy)); [exact Hr|].
  destruct (_ || _ || _ || _); [apply flags_contains_lor; exact Hr|].
  destruct (negb _); [apply flags_contains_lor; exact Hr|exact Hr].
Qed.

(** A non-zero [check_overlay] result comes from a non-empty sub cell. *)
Lemma check_overlay_nonzero_has_nonempty (g sub : Grid C) x y :
  check_overlay g x y sub <> 0 -> has_nonempty sub.
Proof.
  intros Hnz.
  assert (Hinv : check_overlay g x y sub = 0 \/ has_nonempty sub).
  { unfold check_overlay.
    apply (fold2_preserve _ (fun r => r = 0 \/ has_nonempty sub)); [left; reflexivity|].
    intros r sx sy Hx Hy [->|Hh]; [|right; exact Hh].
    unfold check_overlay_cell.
    destruct (is_empty (cell sub sx sy)) eqn:E; [left; reflexivity|].
    right. exists sx, sy. auto. }
  destruct Hinv; [contradiction|assumption].
Qed.

(** A non-empty sub cell that falls outside the grid makes the result
    non-zero (it carries [OVERFLOW]). *)
Lemma check_overlay_out_nonzero (g sub : Grid C) x y sx sy :
  (sx < num_cols sub)%nat -> (sy < num_rows sub)%nat ->
  is_empty (cell sub sx sy) = false ->
  ~ (0 <= x + Z.of_nat sx < Z.of_nat (num_cols g) /\
     0 <= y + Z.of_nat sy < Z.of_nat (num_rows g)) ->
  check_overlay g x y sub <> 0.
Proof.
  intros Hx Hy Hne Hout. unfold check_overlay.
  apply (fold2_establish (fun r sx sy => check_overlay_cell g sub x y r sx sy)
           (fun _ => True) (fun r => r <> 0) _ _ 0 sx sy); auto.
  - intros; apply check_overlay_cell_nonzero; auto.
  - intros r _. unfold check_overlay_cell. rewrite Hne.
    destruct (_ || _ || _ || _) eqn:Eb.
    + intro E; apply Z.lor_eq_0_iff in E; unfold OVERFLOW in E; lia.
    + apply out_of_bounds_false in Eb. contradiction.
Qed.

(** A non-empty sub cell landing on a non-empty in-bounds cell makes the
    result carry [OVERLAP]. *)
Lemma check_overlay_overlap (g sub : Grid C) x y sx sy :
  (sx < num_cols sub)%nat -> (sy < num_rows sub)%nat ->
  is_empty (cell sub sx sy) = false ->
  0 <= x + Z.of_nat sx < Z.of_nat (num_cols g) ->
  0 <= y + Z.of_nat sy < Z.of_nat (num_rows g) ->
  is_empty (cell g (Z.to_nat (x + Z.of_nat sx)) (Z.to_nat (y + Z.of_nat sy))) = false ->
  flags_contains (check_overlay g x y sub) OVERLAP = true.
Proof.
  intros Hx Hy Hne Bx By Hg. unfold check_overlay.
  apply (fold2_establish (fun r sx sy => check_overlay_cell g sub x y r sx sy)
           (fun _ => True) (fun r => flags_contains r OVERLAP = true) _ _ 0 sx sy); auto.
  - intros; apply check_overlay_cell_contains; auto.
  - intros r _. unfold check_overlay_cell. rewrite Hne.
    rewrite (proj2 (out_of_bounds_false _ _ _ _)) by lia.
    rewrite Hg. apply flags_contains_lor_self.
Qed.

Lemma toward_loop_some (g sub : Grid C) dx dy fuel tx ty n res :
  toward_loop fuel g sub dx dy tx ty n = Some res ->
  exists tx' ty', check_overlay g tx' ty' sub <> 0.
Proof.
  revert tx ty n. induction fuel as [|fuel IH]; intros tx ty n E; simpl in E; [discriminate|].
  destruct (flags_is_empty (check_overlay g tx ty sub)) eqn:Ee; simpl in E.
  - eapply IH; exact E.
  - exists tx, ty. unfold flags_is_empty in Ee. apply Z.eqb_neq in Ee. exact Ee.
Qed.

Lemma toward_loop_exits (g sub : Grid C) dx dy k :
  forall fuel tx ty n, (k < fuel)%nat ->
  check_overlay g (tx + Z.of_nat k * dx) (ty + Z.of_nat k * dy) sub <> 0 ->
  exists res, toward_loop fuel g sub dx dy tx ty n = Some res.
Proof.
  induction k as [|k IH]; intros fuel tx ty n Hk Hc; (destruct fuel as [|fuel]; [lia|]); simpl.
  - rewrite !Z.mul_0_l, !Z.add_0_r in Hc.
    destruct (flags_is_empty _) eqn:Ee; simpl.
    + unfold flags_is_empty in Ee. apply Z.eqb_eq in Ee. contradiction.
    + eexists; reflexivity.
  - destruct (flags_is_empty _) eqn:Ee; simpl; [|eexists; reflexivity].
    apply IH; [lia|].
    replace (tx + dx + Z.of_nat k * dx) with (tx + Z.of_nat (S k) * dx) by lia.
    replace (ty + dy + Z.of_nat k * dy) with (ty + Z.of_nat (S k) * dy) by lia.
    exact Hc.
Qed.

End Cells.
End GridFacts2.

Module GridClaims.
Import Grid GridFacts GridFacts2.
Section Cells.
Context {C : Type} `{Default C} `{IsEmpty C}.

(** C9 (amended). Overlay round-trip: if [check_overlay x y sub] is
    empty and [sub] holds at least one non-empty cell, then after
    [overlay x y sub] the same check reports [OVERLAP]. *)
Theorem overlay_roundtrip (g sub : Grid C) (x y : Z) :
  wf g -> has_nonempty sub ->
  flags_is_empty (check_overlay g x y sub) = true ->
  flags_contains (check_overlay (fst (overlay g x y sub)) x y sub) OVERLAP = true.
Proof.
  intros Hwf (sx & sy & Hx & Hy & Hne) Hc.
  unfold flags_is_empty in Hc. apply Z.eqb_eq in Hc.
  destruct (check_overlay_empty_inv g sub x y sx sy Hc Hx Hy Hne) as (Bx & By & _).
  destruct (overlay_dims g sub x y Hwf) as (_ & Ec & Er).
  apply (check_overlay_overlap _ _ _ _ sx sy); auto.
  - rewrite Ec; exact Bx.
  - rewrite Er; exact By.
  - apply overlay_target_nonempty; auto.
Qed.

(** C10. For every direction [(dx, dy) <> (0, 0)], the loop of
    [check_overlay_toward] exits (for some amount of fuel it returns) if
    and only if [sub] holds a non-empty cell; with an all-empty [sub] it
    runs forever. *)
Theorem check_overlay_toward_terminates (g sub : Grid C) (x y dx dy : Z) :
  (dx <> 0 \/ dy <> 0) ->
  ((exists fuel res, check_overlay_toward fuel g x y sub dx dy = Ret res) <-> has_nonempty sub).
Proof.
  intros Hd. unfold check_overlay_toward.
  assert (Ha : negb (negb (dx =? 0) || negb (dy =? 0)) = false).
  { destruct (dx =? 0) eqn:E1, (dy =? 0) eqn:E2; try reflexivity.
    apply Z.eqb_eq in E1, E2. lia. }
  rewrite Ha. split.
  - intros (fuel & res & E).
    destruct (toward_loop fuel g sub dx dy x y 0) eqn:El; [|discriminate].
    destruct (toward_loop_some _ _ _ _ _ _ _ _ _ El) as (tx & ty & Hnz).
    eapply check_overlay_nonzero_has_nonempty; exact Hnz.
  - intros (sx & sy & Hx & Hy & Hne).
    assert (Hk : exists k : nat,
               ~ (0 <= x + Z.of_nat k * dx + Z.of_nat sx < Z.of_nat (num_cols g) /\
                  0 <= y + Z.of_nat k * dy + Z.of_nat sy < Z.of_nat (num_rows g))).
    { destruct (Z.lt_total dx 0) as [Hn|[Hz|Hp]].
      - exists (Z.to_nat (x + Z.of_nat sx + 1)). nia.
      - destruct (Z.lt_total dy 0) as [Hn|[Hz'|Hp]]; [| lia |].
        + exists (Z.to_nat (y + Z.of_nat sy + 1)). nia.
        + exists (Z.to_nat (Z.of_nat (num_rows g) - y)). nia.
      - exists (Z.to_nat (Z.of_nat (num_cols g) - x)). nia. }
    destruct Hk as [k Hk].
    destruct (toward_loop_exits g sub dx dy k (S k) x y 0) as [res Hres]; [lia| |].
    + apply (check_overlay_out_nonzero _ _ _ _ sx sy Hx Hy Hne). exact Hk.
    + exists (S k), res. rewrite Hres. reflexivity.
Qed.

End Cells.
End GridClaims.


(** ** The debouncer *)
Module DebounceFacts.
Import InputCounter Debounce.


Lemma after_frames_S (c : InputCounter) (k : nat) :
  after_frames c (S k) = snd (frame (after_frames c k)).
Proof. reflexivity. Qed.

Lemma after_frames_repeat (m : nat) :
  after_frames c23 (4 + m)%nat =
  if Nat.even m then mkInputCounter 2%N 3%N Repeat false true 0%N
  else mkInputCounter 2%N 3%N Repeat false false 1%N.
Proof.
  induction m as [|m IH]; [vm_compute; reflexivity|].
  replace (4 + S m)%nat with (S (4 + m)) by lia.
  rewrite after_frames_S, IH.
  rewrite Nat.even_succ, <- Nat.negb_even.
  destruct (Nat.even m); vm_compute; reflexivity.
Qed.

(** C7. With [repeat = 2] and [first_delay = 3], the bit held from frame
    1 on and [handle()] called after every [update()], [handle()] returns
    true exactly on frames 1, 4, 6, 8, 10, ... *)
Theorem input_counter_das_arr_schedule (k : nat) :
  (1 <= k)%nat ->
  handled_on_frame (InputCounter.new 2%N 3%N) k = (k =? 1)%nat || ((4 <=? k)%nat && Nat.even k).
Proof.
  intros Hk. fold c23.
  destruct k as [|[|[|[|[|m]]]]];
    [lia|vm_compute; reflexivity|vm_compute; reflexivity|vm_compute; reflexivity
    |vm_compute; reflexivity|].
  unfold handled_on_frame.
  replace (S (S (S (S (S m)))) - 1)%nat with (4 + m)%nat by lia.
  rewrite after_frames_repeat.
  change (Nat.even (S (S (S (S (S m)))))) with (Nat.even (S m)).
  rewrite Nat.even_succ, <- Nat.negb_even.
  destruct (Nat.even m); vm_compute; reflexivity.
Qed.

Lemma input_counter_das_arr_schedule_witness :
  (1 <= 6)%nat /\ handled_on_frame (InputCounter.new 2%N 3%N) 6 = true.
Proof.
  split; [lia|].
  rewrite (input_counter_das_arr_schedule 6); [reflexivity|lia].
Defined.

End DebounceFacts.

(** ** Grid claims at concrete inputs *)
Module GridExamples.
Import Grid GridClaims Samples.

(** C8 (code bug). On the 2x4 grid whose rows 0 and 1 are full and whose
    rows 2 and 3 hold one block each, [pluck_filled_rows(Some(Empty))]
    returns 2, but the [break] at [y == num_rows - n] leaves row 3
    unmoved: 3 non-empty cells remain instead of 6 - 2 * 2 = 2, and row 1
    is still full. *)
Theorem pluck_filled_rows_break_loses_rows :
  count_nonempty pluck_example = 6%nat /\
  snd (pluck_filled_rows pluck_example (Some 0%N)) = 2%nat /\
  count_nonempty (fst (pluck_filled_rows pluck_example (Some 0%N))) = 3%nat /\
  is_row_filled (fst (pluck_filled_rows pluck_example (Some 0%N))) 1 = true.
Proof. vm_compute. repeat split. Qed.


Lemma one_block_nonempty : has_nonempty one_block.
Proof. exists 0%nat, 0%nat. vm_compute. repeat split; lia. Qed.

Lemma overlay_roundtrip_witness :
  wf g2x2 /\ has_nonempty one_block /\
  flags_is_empty (check_overlay g2x2 1 0 one_block) = true /\
  flags_contains (check_overlay (fst (overlay g2x2 1 0 one_block)) 1 0 one_block) OVERLAP = true.
Proof.
  split; [vm_compute; reflexivity|]. split; [exact one_block_nonempty|].
  split; [vm_compute; reflexivity|].
  apply overlay_roundtrip; [vm_compute; reflexivity|exact one_block_nonempty|vm_compute; reflexivity].
Defined.

(** C9 as stated fails for a sub grid without any non-empty cell: the
    check is empty before and after the overlay, never [OVERLAP]. *)
Lemma overlay_roundtrip_empty_sub :
  wf g2x2 /\ flags_is_empty (check_overlay g2x2 0 0 no_block) = true /\
  flags_contains (check_overlay (fst (overlay g2x2 0 0 no_block)) 0 0 no_block) OVERLAP = false.
Proof. vm_compute. repeat split. Qed.

Lemma check_overlay_toward_terminates_witness :
  (0 <> 0 \/ -1 <> 0) /\
  ((exists fuel res, check_overlay_toward fuel g2x2 0 1 one_block 0 (-1) = Ret res)
   <-> has_nonempty one_block).
Proof.
  split; [right; lia|].
  apply check_overlay_toward_terminates. right; lia.
Defined.

End GridExamples.

(** ** The game loop at concrete inputs *)
Module GameExamples.
Import Grid Common Tetro Samples.

(** C1 (code bug). The non-overlap invariant of [Play] breaks on the
    second frame: after entering [Play] the T piece fits, but one
    [FIRM_DROP] lowers it by [droppable_rows], the number of the first
    colliding step, so the game stays in [Play] with a piece that no
    longer fits the playfield (it sticks out below the floor). *)
Theorem firm_drop_breaks_non_overlap :
  match run game0 [0] with
  | Ret g => current_state g = Play /\ play_piece_fits g = true
  | _ => False
  end /\
  match run game0 [0; FIRM_DROP] with
  | Ret g => current_state g = Play /\ play_piece_fits g = false /\
             option_map y (falling_piece (data g)) = Some (-2)
  | _ => False
  end.
Proof. vm_compute. repeat split. Qed.

(** C2 (code bug). For the T piece standing on the floor (it fits, one
    row lower it does not), [droppable_rows] is 1, not 0: it returns the
    [n] of [check_overlay_toward] itself, not [n - 1]. *)
Theorem droppable_rows_at_rest_is_one :
  can_put_onto resting empty_playfield = true /\
  can_put_onto (with_y resting (y resting - 1)) empty_playfield = false /\
  droppable_rows resting empty_playfield = Ret 1%nat /\
  check_overlay_toward (droppable_fuel resting) (grid empty_playfield)
    (x resting) (y resting) (fp_grid resting) 0 (-1) = Ret (1%nat, OVERFLOW).
Proof. vm_compute. repeat split. Qed.

(** C3 (code bug). [Rotation::ccw] from [Cw0] computes [(0 - 1) % 4 = -1]
    and reaches the [never matched] panic, so [ROTATE_CCW] on the first
    [Play] frame makes [Game::update] panic; and a [HARD_DROP] moves the
    piece one row too far, so the overlay assertion of [Lock] fires on the
    next update. *)
Theorem update_panics_on_input :
  ccw Cw0 = Panic "never matched" /\
  is_panic (run game0 [0; ROTATE_CCW]) = true /\
  run game0 [0; HARD_DROP; 0] = Panic "assertion failed: r.is_empty()".
Proof. vm_compute. repeat split. Qed.

(** C4 (code bug). The horizontal step computes [dx = -1] for
    [MOVE_LEFT] and then [t.x -= dx]: a handled [MOVE_LEFT] moves the
    piece from column 3 to column 4, a handled [MOVE_RIGHT] to column 2,
    although column 2 (resp. 4) is free. *)
Theorem horizontal_move_reversed :
  can_put_onto (with_x fp0 2) empty_playfield = true /\
  can_put_onto (with_x fp0 4) empty_playfield = true /\
  match run game0 [0; MOVE_LEFT] with
  | Ret g => current_state g = Play /\ option_map x (falling_piece (data g)) = Some 4
  | _ => False
  end /\
  match run game0 [0; MOVE_RIGHT] with
  | Ret g => current_state g = Play /\ option_map x (falling_piece (data g)) = Some 2
  | _ => False
  end.
Proof. vm_compute. repeat split. Qed.

(** C5 (code bug). A counter-clockwise rotation attempt from [Cw0]
    neither returns a candidate nor [None]: it panics before the kick
    search, while the clockwise attempt of the same piece returns its
    first candidate. *)
Theorem rotate_ccw_from_spawn_panics :
  rotate false fp0 empty_playfield = Panic "never matched" /\
  rotate true fp0 empty_playfield = Ret (Some (mkFallingPiece T 3 10 Cw90, TSpinNone)).
Proof. vm_compute. repeat split. Qed.

End GameExamples.

(** ** The T-Spin tag of an accepted rotation *)
Module TSpinFacts.
Import Grid Common Tetro TSpinSpec.
Lemma outside_or_block_spec (pf : PF) (cx cy : BinNums.Z) :
  outside_or_block pf cx cy = spec_filled pf cx cy.
Proof.
  unfold outside_or_block, spec_filled, is_valid_cell_index.
  destruct (cx <? 0) eqn:E1, (cy <? 0) eqn:E2, (0 <=? cx) eqn:E3, (0 <=? cy) eqn:E4,
    (cx <? Z.of_nat (num_cols (grid pf))) eqn:E5, (cy <? Z.of_nat (num_rows (grid pf))) eqn:E6,
    (Z.to_nat cx <? num_cols (grid pf))%nat eqn:E7, (Z.to_nat cy <? num_rows (grid pf))%nat eqn:E8;
    simpl; try reflexivity;
    rewrite ?Z.ltb_lt, ?Z.ltb_ge, ?Z.leb_le, ?Z.leb_gt, ?Nat.ltb_lt, ?Nat.ltb_ge in *; lia.
Qed.

Lemma t_pointing_values :
  t_pointing Cw0 = (0, 1) /\ t_pointing Cw90 = (1, 0) /\
  t_pointing Cw180 = (0, -1) /\ t_pointing Cw270 = (-1, 0).
Proof. vm_compute. repeat split. Qed.

Lemma tspin_of_spec (c : FP) (pf : PF) : tspin_of c pf = spec_tspin (piece c) c pf.
Proof.
  destruct t_pointing_values as (P0 & P1 & P2 & P3).
  unfold tspin_of, spec_tspin, corners.
  destruct (piece c); try reflexivity. simpl.
  rewrite !outside_or_block_spec.
  destruct (rotation c); [rewrite P0|rewrite P1|rewrite P2|rewrite P3]; simpl;
  unfold Z.sub; change (Z.opp 1) with (-1); change (Z.opp (-1)) with 1;
  change (Z.opp 0) with 0; rewrite ?Z.add_0_r;
  repeat match goal with |- context [spec_filled pf ?a ?b] => destruct (spec_filled pf a b) end;
  reflexivity.
Qed.

Lemma kick_loop_some (fp : FP) (pf : PF) offsets1 offsets2 rest :
  forall i c ts, kick_loop fp pf offsets1 offsets2 i rest = Ret (Some (c, ts)) ->
  piece c = piece fp /\ rotation c = rotation fp /\ ts = tspin_of c pf.
Proof.
  induction rest as [|o1 rest IH]; intros i c ts E; simpl in E; [discriminate|].
  unfold vec_get in E. destruct (offsets2 !! i) as [o2|]; simpl in E; [|discriminate].
  destruct (can_put_onto _ pf) eqn:Ef.
  - injection E as <- <-. simpl. auto.
  - eapply IH; exact E.
Qed.

End TSpinFacts.

Module TSpinClaims.
Import Grid Common Tetro TSpinSpec TSpinFacts Samples.

(** C6. When [rotate] accepts a candidate [fp'], the piece keeps its
    kind and the tag is the spec's classification: for T, count the
    filled diagonal corners of the 3x3 box centred at [(x'+1, y'+1)]
    (outside the grid or non-empty); fewer than 3 give [None]; otherwise,
    if the cell behind the centre (the side opposite T's nub in the new
    rotation) is filled, 4 corners give [Normal] and 3 give [Mini], and
    if it is empty the tag is [Normal]; other pieces get [None]. *)
Theorem rotate_tspin_classification (is_cw : bool) (fp : FP) (pf : PF) (fp' : FP) (ts : TSpin) :
  rotate is_cw fp pf = Ret (Some (fp', ts)) ->
  piece fp' = piece fp /\ ts = spec_tspin (piece fp) fp' pf.
Proof.
  unfold rotate.
  destruct (if is_cw then cw (rotation fp) else ccw (rotation fp)) as [r| |];
    simpl; intros E; try discriminate.
  destruct (kick_loop_some _ _ _ _ _ _ _ _ E) as (Hp & _ & Ht).
  simpl in Hp. split; [exact Hp|]. rewrite Ht, tspin_of_spec, Hp. reflexivity.
Qed.

Lemma rotate_tspin_classification_witness :
  rotate true fp_tspin tspin_field = Ret (Some (mkFallingPiece T 3 0 Cw90, TSpinNormal)) /\
  (piece (mkFallingPiece T 3 0 Cw90) = piece fp_tspin /\
   TSpinNormal = spec_tspin (piece fp_tspin) (mkFallingPiece T 3 0 Cw90) tspin_field).
Proof.
  assert (E : rotate true fp_tspin tspin_field = Ret (Some (mkFallingPiece T 3 0 Cw90, TSpinNormal)))
    by (vm_compute; reflexivity).
  split; [exact E|]. exact (rotate_tspin_classification true fp_tspin tspin_field _ _ E).
Defined.

End TSpinClaims.

Module GridLaws.
Import Grid GridFacts LawDefs.
Section Cells.
Context {C : Type} `{Default C} `{IsEmpty C}.

Lemma cell_set_cell_valid (g : Grid C) x y c px py :
  wf g -> (x < num_cols g)%nat -> (y < num_rows g)%nat ->
  (px < num_cols g)%nat -> (py < num_rows g)%nat ->
  cell (set_cell g x y c) px py = if (x =? px)%nat && (y =? py)%nat then c else cell g px py.
Proof.
  intros Hwf Hx Hy Hpx Hpy. rewrite cell_set_cell by assumption.
  case_decide as E.
  - apply cell_index_inj in E; [|lia|lia]. destruct E as [-> ->].
    rewrite !Nat.eqb_refl. reflexivity.
  - destruct (x =? px)%nat eqn:E1, (y =? py)%nat eqn:E2; try reflexivity.
    apply Nat.eqb_eq in E1, E2. subst. contradiction.
Qed.

Lemma cell_lookup (g : Grid C) x y :
  wf g -> (x < num_cols g)%nat -> (y < num_rows g)%nat ->
  cells g !! cell_index g x y = Some (cell g x y).
Proof.
  intros Hwf Hx Hy. unfold cell.
  destruct (cells g !! cell_index g x y) eqn:E; [reflexivity|].
  apply lookup_ge_None in E. unfold wf, cell_index in *. nia.
Qed.

Lemma grid_ext (g1 g2 : Grid C) :
  wf g1 -> wf g2 -> num_rows g1 = num_rows g2 -> num_cols g1 = num_cols g2 ->
  (forall x y, (x < num_cols g1)%nat -> (y < num_rows g1)%nat -> cell g1 x y = cell g2 x y) ->
  g1 = g2.
Proof.
  intros W1 W2 Er Ec Hc.
  assert (Hl : cells g1 = cells g2).
  { apply list_eq. intros i.
    destruct (decide (i < num_cols g1 * num_rows g1)%nat) as [Hi|Hi].
    - assert (Hc0 : (num_cols g1 <> 0)%nat) by lia.
      pose proof (Nat.div_mod i (num_cols g1) Hc0) as Ed.
      pose proof (Nat.mod_upper_bound i (num_cols g1) Hc0) as Em.
      assert (Hq : (i / num_cols g1 < num_rows g1)%nat).
      { nia. }
      assert (Ei : i = cell_index g1 (i mod num_cols g1) (i / num_cols g1)).
      { unfold cell_index. lia. }
      assert (Ei2 : cell_index g1 (i mod num_cols g1) (i / num_cols g1)
                    = cell_index g2 (i mod num_cols g1) (i / num_cols g1)).
      { unfold cell_index. rewrite <- Ec. reflexivity. }
      rewrite Ei. rewrite cell_lookup by first [exact W1 | lia].
      rewrite Ei2. rewrite cell_lookup by first [exact W2 | rewrite <- Ec; lia | rewrite <- Er; lia].
      f_equal. apply Hc; lia.
    - rewrite !lookup_ge_None_2; [reflexivity| |].
      + unfold wf in W2. rewrite W2, <- Er, <- Ec. lia.
      + unfold wf in W1. rewrite W1. lia. }
  destruct g1, g2; simpl in *. subst. reflexivity.
Qed.

(** Folds of [set_cell] whose written values do not depend on the grid
    being written. *)
Lemma fold_set_cell_valid {B} (l : list B) (tgt : B -> nat * nat) (val : B -> C) (g : Grid C) :
  wf g -> (forall b, In b l -> (fst (tgt b) < num_cols g)%nat /\ (snd (tgt b) < num_rows g)%nat) ->
  let g' := fold_left (fun g b => set_cell g (fst (tgt b)) (snd (tgt b)) (val b)) l g in
  wf g' /\ num_rows g' = num_rows g /\ num_cols g' = num_cols g.
Proof.
  revert g. induction l as [|b l IH]; intros g Hw Hv; simpl; [auto|].
  destruct (IH (set_cell g (fst (tgt b)) (snd (tgt b)) (val b))) as (A1 & A2 & A3).
  - apply set_cell_wf; auto.
  - intros b' Hb'. apply Hv. simpl. auto.
  - simpl in *. auto.
Qed.

Lemma fold_set_cell_in {B} (l : list B) (tgt : B -> nat * nat) (val : B -> C) (g : Grid C) px py v :
  wf g -> (forall b, In b l -> (fst (tgt b) < num_cols g)%nat /\ (snd (tgt b) < num_rows g)%nat) ->
  (px < num_cols g)%nat -> (py < num_rows g)%nat ->
  (forall b, In b l -> tgt b = (px, py) -> val b = v) ->
  (exists b, In b l /\ tgt b = (px, py)) ->
  cell (fold_left (fun g b => set_cell g (fst (tgt b)) (snd (tgt b)) (val b)) l g) px py = v.
Proof.
  intros Hw. induction l as [|b l IH] using rev_ind; intros Hv Hpx Hpy Hval (b0 & Hin & Ht);
    [destruct Hin|].
  rewrite fold_left_app. simpl.
  assert (Hv' : forall b', In b' l -> (fst (tgt b') < num_cols g)%nat /\ (snd (tgt b') < num_rows g)%nat)
    by (intros; apply Hv; apply in_or_app; auto).
  destruct (fold_set_cell_valid l tgt val g Hw Hv') as (W & R & Cc).
  destruct (Hv b ltac:(apply in_or_app; simpl; auto)) as [Hb1 Hb2].
  rewrite cell_set_cell_valid; rewrite ?R, ?Cc; auto.
  destruct (fst (tgt b) =? px)%nat eqn:E1, (snd (tgt b) =? py)%nat eqn:E2; simpl.
  1: apply Nat.eqb_eq in E1, E2; apply Hval; [apply in_or_app; simpl; auto|];
     destruct (tgt b); simpl in *; subst; reflexivity.
  all: apply IH; auto; [intros; apply Hval; auto; apply in_or_app; auto|].
  all: apply in_app_or in Hin; destruct Hin as [Hin|[<-|[]]]; [eauto|].
  all: exfalso; rewrite Ht in E1, E2; simpl in *; rewrite Nat.eqb_refl in *; discriminate.
Qed.

Lemma fold_set_cell_out {B} (l : list B) (tgt : B -> nat * nat) (val : B -> C) (g : Grid C) px py :
  wf g -> (forall b, In b l -> (fst (tgt b) < num_cols g)%nat /\ (snd (tgt b) < num_rows g)%nat) ->
  (px < num_cols g)%nat -> (py < num_rows g)%nat ->
  (forall b, In b l -> tgt b <> (px, py)) ->
  cell (fold_left (fun g b => set_cell g (fst (tgt b)) (snd (tgt b)) (val b)) l g) px py = cell g px py.
Proof.
  revert g. induction l as [|b l IH]; intros g Hw Hv Hpx Hpy Hne; simpl; [reflexivity|].
  destruct (Hv b (or_introl eq_refl)) as [Hb1 Hb2].
  rewrite IH; auto using set_cell_wf.
  - rewrite cell_set_cell_valid; auto.
    destruct (fst (tgt b) =? px)%nat eqn:E1, (snd (tgt b) =? py)%nat eqn:E2; try reflexivity.
    apply Nat.eqb_eq in E1, E2. exfalso. apply (Hne b); [simpl; auto|].
    destruct (tgt b); simpl in *; subst; reflexivity.
  - intros; apply Hv; simpl; auto.
  - intros; apply Hne; simpl; auto.
Qed.


Lemma fold_left_map_comp {A B D} (f : A -> B -> A) (h : D -> B) (l : list D) a :
  fold_left f (List.map h l) a = fold_left (fun a d => f a (h d)) l a.
Proof. revert a; induction l; simpl; auto. Qed.

Lemma fold_left_ext_in {A B} (f g : A -> B -> A) (l : list B) a :
  (forall a b, In b l -> f a b = g a b) -> fold_left f l a = fold_left g l a.
Proof.
  revert a. induction l as [|b l IH]; intros a Hfg; simpl; [reflexivity|].
  rewrite Hfg by (simpl; auto). apply IH. intros; apply Hfg; simpl; auto.
Qed.

Lemma fold2_flat {A} (f : A -> nat -> nat -> A) cols rows a :
  fold_left (fun a y => fold_left (fun a x => f a x y) (seq 0 cols) a) (seq 0 rows) a
  = fold_left (fun a p => f a (fst p) (snd p)) (pairs cols rows) a.
Proof.
  unfold pairs. generalize (seq 0 rows) as ys. generalize (seq 0 cols) as xs.
  intros xs ys. revert a. induction ys as [|y ys IH]; intros a; simpl; [reflexivity|].
  rewrite fold_left_app, fold_left_map_comp. apply IH.
Qed.

Lemma in_pairs cols rows x y : In (x, y) (pairs cols rows) <-> (x < cols)%nat /\ (y < rows)%nat.
Proof.
  unfold pairs. rewrite in_flat_map. split.
  - intros (y' & Hy & Hx). apply in_map_iff in Hx as (x' & E & Hx). injection E as -> ->.
    apply in_seq in Hx, Hy. lia.
  - intros [Hx Hy]. exists y. split; [apply in_seq; lia|]. apply in_map_iff. exists x.
    split; [reflexivity|apply in_seq; lia].
Qed.

Lemma pairs_NoDup cols rows : NoDup (pairs cols rows).
Proof.
  unfold pairs. assert (Hx := NoDup_seq 0 cols). assert (Hy := NoDup_seq 0 rows).
  revert Hx Hy. generalize (seq 0 rows) as ys. generalize (seq 0 cols) as xs.
  intros xs ys Hx. induction ys as [|y ys IH]; intros Hy; simpl; [constructor|].
  apply NoDup_cons in Hy as [Hy Hys]. apply NoDup_app. split; [|split].
  - clear IH. induction xs as [|x xs IHx]; simpl; [constructor|].
    apply NoDup_cons in Hx as [Hx Hxs]. apply NoDup_cons. split; [|auto].
    intros Hin. apply list_elem_of_In, in_map_iff in Hin as (x' & E & Hin). injection E as ->.
    apply Hx, list_elem_of_In, Hin.
  - intros p Hp1 Hp2. apply list_elem_of_In, in_map_iff in Hp1 as (x' & <- & _).
    apply list_elem_of_In, in_flat_map in Hp2 as (y' & Hy' & Hp).
    apply in_map_iff in Hp as (x'' & E & _). injection E as _ ->.
    apply Hy, list_elem_of_In, Hy'.
  - apply IH, Hys.
Qed.

Lemma in_pairs' cols rows p : In p (pairs cols rows) -> (fst p < cols)%nat /\ (snd p < rows)%nat.
Proof. destruct p as [x y]. apply in_pairs. Qed.

Lemma new_wf cols rows (cs : list C) :
  wf (new cols rows cs) /\ num_cols (new cols rows cs) = cols /\ num_rows (new cols rows cs) = rows.
Proof. unfold wf, new; simpl. rewrite length_resize. auto. Qed.

Lemma rotate_with_as_fold (g : Grid C) cols rows pos :
  rotate_with g cols rows pos =
  fold_left (fun acc p => set_cell acc (fst (pos (fst p) (snd p))) (snd (pos (fst p) (snd p)))
                                   (cell g (fst p) (snd p)))
    (pairs (num_cols g) (num_rows g)) (new cols rows []).
Proof.
  unfold rotate_with. rewrite (fold2_flat (fun acc x y => let '(a, b) := pos x y in set_cell acc a b (cell g x y))).
  apply fold_left_ext_in. intros acc [x y] _. simpl. destruct (pos x y); reflexivity.
Qed.

Lemma rotate_with_dims (g : Grid C) cols rows pos :
  (forall x y, (x < num_cols g)%nat -> (y < num_rows g)%nat ->
     (fst (pos x y) < cols)%nat /\ (snd (pos x y) < rows)%nat) ->
  wf (rotate_with g cols rows pos) /\ num_rows (rotate_with g cols rows pos) = rows /\
  num_cols (rotate_with g cols rows pos) = cols.
Proof.
  intros Hpos. rewrite rotate_with_as_fold.
  destruct (new_wf cols rows []) as (W & Cc & R).
  destruct (fold_set_cell_valid (pairs (num_cols g) (num_rows g)) (fun p => pos (fst p) (snd p))
              (fun p => cell g (fst p) (snd p)) (new cols rows []) W) as (W' & R' & C').
  - intros p Hp. apply in_pairs' in Hp. rewrite Cc, R. apply Hpos; tauto.
  - rewrite R' , C', R, Cc. auto.
Qed.

Lemma rotate_with_cell (g : Grid C) cols rows pos a b x0 y0 :
  (forall x y, (x < num_cols g)%nat -> (y < num_rows g)%nat ->
     (fst (pos x y) < cols)%nat /\ (snd (pos x y) < rows)%nat) ->
  (a < cols)%nat -> (b < rows)%nat ->
  (x0 < num_cols g)%nat -> (y0 < num_rows g)%nat -> pos x0 y0 = (a, b) ->
  (forall x y, (x < num_cols g)%nat -> (y < num_rows g)%nat -> pos x y = (a, b) -> x = x0 /\ y = y0) ->
  cell (rotate_with g cols rows pos) a b = cell g x0 y0.
Proof.
  intros Hpos Ha Hb Hx0 Hy0 Hp0 Huniq. rewrite rotate_with_as_fold.
  destruct (new_wf cols rows []) as (W & Cc & R).
  apply fold_set_cell_in; rewrite ?Cc, ?R; auto.
  - intros p Hp. apply in_pairs' in Hp. apply Hpos; tauto.
  - intros [x y] Hp E. apply in_pairs in Hp. simpl in *.
    destruct (Huniq x y) as [-> ->]; tauto.
  - exists (x0, y0). split; [apply in_pairs; auto|exact Hp0].
Qed.

Lemma rotate1_spec (g : Grid C) :
  wf (rotate1 g) /\ num_rows (rotate1 g) = num_cols g /\ num_cols (rotate1 g) = num_rows g /\
  forall a b, (a < num_rows g)%nat -> (b < num_cols g)%nat ->
    cell (rotate1 g) a b = cell g (num_cols g - 1 - b) a.
Proof.
  unfold rotate1.
  assert (Hpos : forall x y, (x < num_cols g)%nat -> (y < num_rows g)%nat ->
            (fst ((fun x y => (y, num_cols g - 1 - x)%nat) x y) < num_rows g)%nat /\
            (snd ((fun x y => (y, num_cols g - 1 - x)%nat) x y) < num_cols g)%nat)
    by (intros; simpl; lia).
  destruct (rotate_with_dims g _ _ _ Hpos) as (W & R & Cc). split; [|split; [|split]]; auto.
  intros a b Ha Hb. apply rotate_with_cell; auto; try lia.
  - f_equal; lia.
  - intros x y Hx Hy E. injection E as E1 E2. lia.
Qed.

Lemma rotate2_spec (g : Grid C) :
  wf (rotate2 g) /\ num_rows (rotate2 g) = num_rows g /\ num_cols (rotate2 g) = num_cols g /\
  forall a b, (a < num_cols g)%nat -> (b < num_rows g)%nat ->
    cell (rotate2 g) a b = cell g (num_cols g - 1 - a) (num_rows g - 1 - b).
Proof.
  unfold rotate2.
  assert (Hpos : forall x y, (x < num_cols g)%nat -> (y < num_rows g)%nat ->
            (fst ((fun x y => (num_cols g - 1 - x, num_rows g - 1 - y)%nat) x y) < num_cols g)%nat /\
            (snd ((fun x y => (num_cols g - 1 - x, num_rows g - 1 - y)%nat) x y) < num_rows g)%nat)
    by (intros; simpl; lia).
  destruct (rotate_with_dims g _ _ _ Hpos) as (W & R & Cc). split; [|split; [|split]]; auto.
  intros a b Ha Hb. apply rotate_with_cell; auto; try lia.
  - f_equal; lia.
  - intros x y Hx Hy E. injection E as E1 E2. lia.
Qed.

Lemma rotate3_spec (g : Grid C) :
  wf (rotate3 g) /\ num_rows (rotate3 g) = num_cols g /\ num_cols (rotate3 g) = num_rows g /\
  forall a b, (a < num_rows g)%nat -> (b < num_cols g)%nat ->
    cell (rotate3 g) a b = cell g b (num_rows g - 1 - a).
Proof.
  unfold rotate3.
  assert (Hpos : forall x y, (x < num_cols g)%nat -> (y < num_rows g)%nat ->
            (fst ((fun x y => (num_rows g - 1 - y, x)%nat) x y) < num_rows g)%nat /\
            (snd ((fun x y => (num_rows g - 1 - y, x)%nat) x y) < num_cols g)%nat)
    by (intros; simpl; lia).
  destruct (rotate_with_dims g _ _ _ Hpos) as (W & R & Cc). split; [|split; [|split]]; auto.
  intros a b Ha Hb. apply rotate_with_cell; auto; try lia.
  - f_equal; lia.
  - intros x y Hx Hy E. injection E as E1 E2. lia.
Qed.

Lemma rotate_compose_eq (g : Grid C) :
  wf g ->
  rotate1 (rotate1 g) = rotate2 g /\ rotate1 (rotate2 g) = rotate3 g /\ rotate1 (rotate3 g) = g.
Proof.
  intros Hw.
  destruct (rotate1_spec g) as (W1 & R1 & C1 & H1).
  destruct (rotate2_spec g) as (W2 & R2 & C2 & H2).
  destruct (rotate3_spec g) as (W3 & R3 & C3 & H3).
  destruct (rotate1_spec (rotate1 g)) as (W11 & R11 & C11 & H11).
  destruct (rotate1_spec (rotate2 g)) as (W12 & R12 & C12 & H12).
  destruct (rotate1_spec (rotate3 g)) as (W13 & R13 & C13 & H13).
  split; [|split]; apply grid_ext; auto; try congruence.
  - intros a b Ha Hb. rewrite C11, R1 in Ha. rewrite R11, C1 in Hb.
    rewrite H11 by (rewrite ?R1, ?C1; lia). rewrite C1. rewrite H1 by lia.
    rewrite H2 by lia. f_equal; lia.
  - intros a b Ha Hb. rewrite C12, R2 in Ha. rewrite R12, C2 in Hb.
    rewrite H12 by (rewrite ?R2, ?C2; lia). rewrite C2. rewrite H2 by lia.
    rewrite H3 by lia. f_equal; lia.
  - intros a b Ha Hb. rewrite C13, R3 in Ha. rewrite R13, C3 in Hb.
    rewrite H13 by (rewrite ?R3, ?C3; lia). rewrite C3. rewrite H3 by lia. f_equal; lia.
Qed.

(** The inner loop of [reverse_rows] swaps rows [y] and [yy] in the
    columns it visits. *)
Lemma swap_loop (g : Grid C) y yy xs :
  wf g -> (y < num_rows g)%nat -> (yy < num_rows g)%nat -> y <> yy -> NoDup xs ->
  (forall x, In x xs -> (x < num_cols g)%nat) ->
  let g' := fold_left (fun g x =>
                let t := cell g x y in
                let g := set_cell g x y (cell g x yy) in
                set_cell g x yy t) xs g in
  wf g' /\ num_rows g' = num_rows g /\ num_cols g' = num_cols g /\
  forall px py, (px < num_cols g)%nat -> (py < num_rows g)%nat ->
    cell g' px py = if decide (px ∈ xs) then
                      (if (py =? y)%nat then cell g px yy
                       else if (py =? yy)%nat then cell g px y else cell g px py)
                    else cell g px py.
Proof.
  intros Hw Hy Hyy Hne Hnd Hxs. revert g Hw Hy Hyy Hxs. induction xs as [|x xs IH]; intros g Hw Hy Hyy Hxs.
  - simpl. split; [|split; [|split]]; auto.
  - simpl. apply NoDup_cons in Hnd as [Hx Hnd].
    set (g1 := set_cell (set_cell g x y (cell g x yy)) x yy (cell g x y)).
    assert (W1 : wf g1) by (apply set_cell_wf, set_cell_wf, Hw).
    assert (Hx0 : (x < num_cols g)%nat) by (apply Hxs; simpl; auto).
    assert (Hg1 : forall px py, (px < num_cols g)%nat -> (py < num_rows g)%nat ->
              cell g1 px py = if (x =? px)%nat && (yy =? py)%nat then cell g x y
                              else if (x =? px)%nat && (y =? py)%nat then cell g x yy
                              else cell g px py).
    { intros px py Hpx Hpy. unfold g1.
      rewrite cell_set_cell_valid by (try apply set_cell_wf; simpl; auto).
      rewrite cell_set_cell_valid by auto. reflexivity. }
    destruct (IH Hnd g1 W1 Hy Hyy) as (W & R & Cc & Hc).
    { intros x' Hx'. apply Hxs. simpl. auto. }
    split; [exact W|]. simpl in R, Cc. split; [exact R|]. split; [exact Cc|].
    intros px py Hpx Hpy. rewrite Hc by (simpl; auto).
    destruct (decide (px ∈ xs)) as [Hin|Hnin].
    + assert (x <> px) by (intros ->; apply Hx, Hin).
      rewrite decide_True by (apply elem_of_cons; auto).
      rewrite !Hg1 by auto. destruct (x =? px)%nat eqn:E; [apply Nat.eqb_eq in E; contradiction|].
      simpl. reflexivity.
    + rewrite Hg1 by auto.
      destruct (decide (x = px)) as [<-|Hxp].
      * rewrite decide_True by (apply elem_of_cons; auto). rewrite Nat.eqb_refl. simpl.
        destruct (yy =? py)%nat eqn:E1, (y =? py)%nat eqn:E2, (py =? y)%nat eqn:E3, (py =? yy)%nat eqn:E4;
          rewrite ?Nat.eqb_eq, ?Nat.eqb_neq in *; subst; try congruence; try lia.
      * rewrite decide_False by (rewrite elem_of_cons; intros [E|E]; [apply Hxp; symmetry; exact E|contradiction]).
        destruct (x =? px)%nat eqn:E; [apply Nat.eqb_eq in E; contradiction|]. reflexivity.
Qed.

Lemma reverse_rows_prefix (g : Grid C) k :
  wf g -> (k <= num_rows g / 2)%nat ->
  let F := fun g y =>
      let yy := (num_rows g - 1 - y)%nat in
      fold_left (fun g x =>
          let t := cell g x y in
          let g := set_cell g x y (cell g x yy) in
          set_cell g x yy t) (seq 0 (num_cols g)) g in
  let g' := fold_left F (seq 0 k) g in
  wf g' /\ num_rows g' = num_rows g /\ num_cols g' = num_cols g /\
  forall px py, (px < num_cols g)%nat -> (py < num_rows g)%nat ->
    cell g' px py = cell g px (if (py <? k)%nat || (num_rows g - k <=? py)%nat
                               then num_rows g - 1 - py else py)%nat.
Proof.
  intros Hw. induction k as [|k IH]; intros Hk F g'.
  - subst g'. simpl. split; [|split; [|split]]; auto. intros px py _ Hpy.
    f_equal. destruct (num_rows g - 0 <=? py)%nat eqn:E; apply Nat.leb_le in E || apply Nat.leb_gt in E; lia.
  - assert (Hdiv : (2 * (num_rows g / 2) <= num_rows g)%nat) by (apply Nat.Div0.mul_div_le).
    destruct (IH ltac:(lia)) as (W & R & Cc & Hc). fold F in W, R, Cc, Hc.
    subst g'. rewrite seq_S, fold_left_app. simpl fold_left at 1.
    set (acc := fold_left F (seq 0 k) g) in *.
    unfold F at 1.
    destruct (swap_loop acc k (num_rows acc - 1 - k) (seq 0 (num_cols acc)) W)
      as (W' & R' & C' & Hc'); try (rewrite R; lia); [apply NoDup_seq| |].
    { intros x Hx. apply in_seq in Hx. lia. }
    split; [exact W'|]. split; [etransitivity; [exact R'|exact R]|].
    split; [etransitivity; [exact C'|exact Cc]|].
    intros px py Hpx Hpy. etransitivity; [apply Hc'; rewrite ?R, ?Cc; lia|].
    rewrite decide_True by (apply list_elem_of_In, in_seq; lia). rewrite R.
    destruct (py =? k)%nat eqn:E1.
    + apply Nat.eqb_eq in E1. subst py. rewrite Hc by lia. f_equal.
      destruct (num_rows g - 1 - k <? k)%nat eqn:E2, (num_rows g - k <=? num_rows g - 1 - k)%nat eqn:E3,
        (k <? S k)%nat eqn:E4;
        rewrite ?Nat.ltb_lt, ?Nat.ltb_ge, ?Nat.leb_le, ?Nat.leb_gt in *; simpl; lia.
    + apply Nat.eqb_neq in E1. destruct (py =? num_rows g - 1 - k)%nat eqn:E5.
      * apply Nat.eqb_eq in E5. rewrite Hc by lia. f_equal.
        destruct (k <? k)%nat eqn:E2, (num_rows g - k <=? k)%nat eqn:E3,
          (py <? S k)%nat eqn:E4, (num_rows g - S k <=? py)%nat eqn:E6;
          rewrite ?Nat.ltb_lt, ?Nat.ltb_ge, ?Nat.leb_le, ?Nat.leb_gt in *; simpl; lia.
      * apply Nat.eqb_neq in E5. rewrite Hc by lia. f_equal.
        destruct (py <? k)%nat eqn:E2, (num_rows g - k <=? py)%nat eqn:E3,
          (py <? S k)%nat eqn:E4, (num_rows g - S k <=? py)%nat eqn:E6;
          rewrite ?Nat.ltb_lt, ?Nat.ltb_ge, ?Nat.leb_le, ?Nat.leb_gt in *; simpl; lia.
Qed.

Lemma reverse_rows_spec (g : Grid C) :
  wf g ->
  wf (reverse_rows g) /\ num_rows (reverse_rows g) = num_rows g /\
  num_cols (reverse_rows g) = num_cols g /\
  forall x y, (x < num_cols g)%nat -> (y < num_rows g)%nat ->
    cell (reverse_rows g) x y = cell g x (num_rows g - 1 - y).
Proof.
  intros Hw. destruct (reverse_rows_prefix g (num_rows g / 2) Hw (le_n _)) as (W & R & Cc & Hc).
  unfold reverse_rows. split; [exact W|]. split; [exact R|]. split; [exact Cc|].
  intros x y Hx Hy. rewrite Hc by auto. f_equal.
  assert (Hdm := Nat.div_mod (num_rows g) 2 ltac:(lia)).
  assert (Hmod := Nat.mod_upper_bound (num_rows g) 2 ltac:(lia)).
  destruct (y <? num_rows g / 2)%nat eqn:E1, (num_rows g - num_rows g / 2 <=? y)%nat eqn:E2;
    rewrite ?Nat.ltb_lt, ?Nat.ltb_ge, ?Nat.leb_le, ?Nat.leb_gt in *; simpl; lia.
Qed.

Lemma reverse_rows_involutive (g : Grid C) : wf g -> reverse_rows (reverse_rows g) = g.
Proof.
  intros Hw. destruct (reverse_rows_spec g Hw) as (W & R & Cc & Hc).
  destruct (reverse_rows_spec (reverse_rows g) W) as (W2 & R2 & C2 & Hc2).
  apply grid_ext; auto; try congruence.
  intros x y Hx Hy. rewrite C2, Cc in Hx. rewrite R2, R in Hy.
  rewrite Hc2 by (rewrite ?R, ?Cc; lia). rewrite R.
  rewrite Hc by lia. f_equal. lia.
Qed.

(** A loop over distinct columns whose step at [x] rewrites column [x]
    from column [x] alone. *)
Lemma column_loop (step : Grid C -> nat -> Grid C) (res : Grid C -> nat -> nat -> C) xs g :
  (forall h x, wf h -> num_rows h = num_rows g -> num_cols h = num_cols g -> (x < num_cols g)%nat ->
     wf (step h x) /\ num_rows (step h x) = num_rows h /\ num_cols (step h x) = num_cols h /\
     forall px py, (px < num_cols g)%nat -> (py < num_rows g)%nat ->
       cell (step h x) px py = if (px =? x)%nat then res h x py else cell h px py) ->
  (forall h h' x,
     (forall py, (py < num_rows g)%nat -> cell h x py = cell h' x py) ->
     forall py, (py < num_rows g)%nat -> res h x py = res h' x py) ->
  wf g -> NoDup xs -> (forall x, In x xs -> (x < num_cols g)%nat) ->
  let g' := fold_left step xs g in
  wf g' /\ num_rows g' = num_rows g /\ num_cols g' = num_cols g /\
  forall px py, (px < num_cols g)%nat -> (py < num_rows g)%nat ->
    cell g' px py = if decide (px ∈ xs) then res g px py else cell g px py.
Proof.
  intros Hstep Hloc Hw Hnd Hxs g'. subst g'.
  assert (Hgen : forall h, wf h -> num_rows h = num_rows g -> num_cols h = num_cols g ->
    let h' := fold_left step xs h in
    wf h' /\ num_rows h' = num_rows g /\ num_cols h' = num_cols g /\
    forall px py, (px < num_cols g)%nat -> (py < num_rows g)%nat ->
      cell h' px py = if decide (px ∈ xs) then res h px py else cell h px py).
  2: { destruct (Hgen g Hw eq_refl eq_refl) as (W & R & Cc & Hc). auto. }
  clear Hw. induction xs as [|x xs IH]; intros h Hw Er Ec.
  - simpl. split; [|split; [|split]]; auto.
  - simpl. apply NoDup_cons in Hnd as [Hx Hnd].
    assert (Hx0 : (x < num_cols g)%nat) by (apply Hxs; simpl; auto).
    destruct (Hstep h x Hw Er Ec Hx0) as (W1 & R1 & C1 & Hc1).
    destruct (IH Hnd ltac:(intros; apply Hxs; simpl; auto) (step h x) W1 ltac:(congruence) ltac:(congruence))
      as (W & R & Cc & Hc).
    split; [exact W|]. split; [exact R|]. split; [exact Cc|].
    intros px py Hpx Hpy. rewrite Hc by auto.
    destruct (decide (px ∈ xs)) as [Hin|Hnin].
    + assert (x <> px) by (intros ->; apply Hx, Hin).
      rewrite decide_True by (apply elem_of_cons; auto).
      apply Hloc; [|exact Hpy]. intros py' Hpy'.
      rewrite Hc1 by auto. destruct (px =? x)%nat eqn:E; [apply Nat.eqb_eq in E; congruence|].
      reflexivity.
    + rewrite Hc1 by auto. destruct (px =? x)%nat eqn:E.
      * apply Nat.eqb_eq in E. subst px. rewrite decide_True by (apply elem_of_cons; auto). reflexivity.
      * apply Nat.eqb_neq in E. rewrite decide_False; [reflexivity|].
        rewrite elem_of_cons. intros [E'|E']; [congruence|contradiction].
Qed.

Lemma seq_columns (g : Grid C) : NoDup (seq 0 (num_cols g)) /\ forall x, In x (seq 0 (num_cols g)) -> (x < num_cols g)%nat.
Proof. split; [apply NoDup_seq|]. intros x Hx. apply in_seq in Hx. lia. Qed.

Lemma in_seq_dec x n : (x < n)%nat -> x ∈ seq 0 n.
Proof. intros. apply list_elem_of_In, in_seq. lia. Qed.

Lemma in_seq_if {A} x n (a b : A) : (x < n)%nat -> (if decide (x ∈ seq 0 n) then a else b) = a.
Proof. intros. apply decide_True, in_seq_dec; auto. Qed.

(** X7: [move_row src dst p] copies row [src] onto row [dst], then fills row
    [src] with [p] when [p] is [Some]; no other row changes. *)
Theorem move_row_spec (g : Grid C) src_y dst_y placeholder :
  wf g -> (src_y < num_rows g)%nat -> (dst_y < num_rows g)%nat ->
  let g' := move_row g src_y dst_y placeholder in
  wf g' /\ num_rows g' = num_rows g /\ num_cols g' = num_cols g /\
  forall x y, (x < num_cols g)%nat -> (y < num_rows g)%nat ->
    cell g' x y = match placeholder with
                  | Some c => if (y =? src_y)%nat then c
                              else if (y =? dst_y)%nat then cell g x src_y else cell g x y
                  | None => if (y =? dst_y)%nat then cell g x src_y else cell g x y
                  end.
Proof.
  intros Hw Hs Hd g'. destruct (seq_columns g) as [Hnd Hxs].
  destruct (column_loop
    (fun g x => let g := set_cell g x dst_y (cell g x src_y) in
                match placeholder with Some c => set_cell g x src_y c | None => g end)
    (fun g x y => match placeholder with
                  | Some c => if (y =? src_y)%nat then c
                              else if (y =? dst_y)%nat then cell g x src_y else cell g x y
                  | None => if (y =? dst_y)%nat then cell g x src_y else cell g x y
                  end) (seq 0 (num_cols g)) g) as (W & R & Cc & Hc); auto.
  - intros h x Wh Er Ec Hx. rewrite <- Er in Hs, Hd. rewrite <- Ec in Hx |- *. rewrite <- Er.
    assert (W1 : wf (set_cell h x dst_y (cell h x src_y))) by (apply set_cell_wf, Wh).
    destruct placeholder as [c|].
    + split; [apply set_cell_wf, W1|]. split; [reflexivity|]. split; [reflexivity|].
      intros px py Hpx Hpy. rewrite cell_set_cell_valid by (simpl; auto; lia).
      rewrite cell_set_cell_valid by (simpl; auto; lia).
      destruct (px =? x)%nat eqn:E0, (x =? px)%nat eqn:E1, (src_y =? py)%nat eqn:E2,
        (dst_y =? py)%nat eqn:E3, (py =? src_y)%nat eqn:E4, (py =? dst_y)%nat eqn:E5;
        rewrite ?Nat.eqb_eq, ?Nat.eqb_neq in *; simpl; subst; try reflexivity; lia.
    + split; [exact W1|]. split; [reflexivity|]. split; [reflexivity|].
      intros px py Hpx Hpy. rewrite cell_set_cell_valid by (simpl; auto; lia).
      destruct (px =? x)%nat eqn:E0, (x =? px)%nat eqn:E1,
        (dst_y =? py)%nat eqn:E3, (py =? dst_y)%nat eqn:E5;
        rewrite ?Nat.eqb_eq, ?Nat.eqb_neq in *; simpl; subst; try reflexivity; lia.
  - intros h h' x Hcol py Hpy. destruct placeholder;
      repeat match goal with |- context [(?a =? ?b)%nat] => destruct (a =? b)%nat eqn:? end;
      rewrite ?Nat.eqb_eq in *; subst; auto.
  - unfold g', move_row. split; [exact W|]. split; [exact R|]. split; [exact Cc|].
    intros x y Hx Hy. rewrite Hc by auto. rewrite decide_True by (apply in_seq_dec; auto). reflexivity.
Qed.

Lemma fill_row_spec (g : Grid C) y c :
  wf g -> (y < num_rows g)%nat ->
  let g' := fill_row g y c in
  wf g' /\ num_rows g' = num_rows g /\ num_cols g' = num_cols g /\
  forall px py, (px < num_cols g)%nat -> (py < num_rows g)%nat ->
    cell g' px py = if (py =? y)%nat then c else cell g px py.
Proof.
  intros Hw Hy g'. destruct (seq_columns g) as [Hnd Hxs].
  destruct (column_loop (fun g x => set_cell g x y c)
              (fun g x py => if (py =? y)%nat then c else cell g x py) (seq 0 (num_cols g)) g)
    as (W & R & Cc & Hc); auto.
  - intros h x Wh Er Ec Hx. split; [apply set_cell_wf, Wh|]. split; [reflexivity|]. split; [reflexivity|].
    intros px py Hpx Hpy. rewrite cell_set_cell_valid by (auto; lia).
    destruct (px =? x)%nat eqn:E0, (x =? px)%nat eqn:E1, (y =? py)%nat eqn:E2, (py =? y)%nat eqn:E3;
      rewrite ?Nat.eqb_eq, ?Nat.eqb_neq in *; simpl; subst; try reflexivity; lia.
  - intros h h' x Hcol py Hpy. destruct (py =? y)%nat; auto.
  - unfold g', fill_row. split; [exact W|]. split; [exact R|]. split; [exact Cc|].
    intros px py Hpx Hpy. rewrite Hc by auto. rewrite decide_True by (apply in_seq_dec; auto). reflexivity.
Qed.

Lemma fill_rows_list (g : Grid C) ys c :
  wf g -> (forall y, In y ys -> (y < num_rows g)%nat) ->
  let g' := fold_left (fun g y => fill_row g y c) ys g in
  wf g' /\ num_rows g' = num_rows g /\ num_cols g' = num_cols g /\
  forall px py, (px < num_cols g)%nat -> (py < num_rows g)%nat ->
    cell g' px py = if decide (py ∈ ys) then c else cell g px py.
Proof.
  revert g. induction ys as [|y ys IH]; intros g Hw Hys g'.
  - simpl in g'. subst g'. split; [|split; [|split]]; auto.
  - assert (Hy : (y < num_rows g)%nat) by (apply Hys; simpl; auto).
    destruct (fill_row_spec g y c Hw Hy) as (W1 & R1 & C1 & Hc1).
    destruct (IH (fill_row g y c) W1) as (W & R & Cc & Hc).
    { intros y' Hy'. rewrite R1. apply Hys. simpl. auto. }
    subst g'. simpl. split; [exact W|]. split; [congruence|]. split; [congruence|].
    intros px py Hpx Hpy. rewrite Hc by congruence.
    destruct (decide (py ∈ ys)) as [Hin|Hnin].
    + rewrite decide_True by (apply elem_of_cons; auto). reflexivity.
    + rewrite Hc1 by auto. destruct (py =? y)%nat eqn:E.
      * apply Nat.eqb_eq in E. subst. rewrite decide_True by (apply elem_of_cons; auto). reflexivity.
      * apply Nat.eqb_neq in E. rewrite decide_False; [reflexivity|].
        rewrite elem_of_cons. intros [?|?]; contradiction.
Qed.

(** X3: [fill_rows] over [y0..y1] sets exactly the cells of those rows to
    the given cell and keeps the shape. *)
Theorem fill_rows_spec (g : Grid C) y0 y1 c :
  wf g -> (y1 <= num_rows g)%nat ->
  let g' := fill_rows g y0 y1 c in
  wf g' /\ num_rows g' = num_rows g /\ num_cols g' = num_cols g /\
  forall x y, (x < num_cols g)%nat -> (y < num_rows g)%nat ->
    cell g' x y = if (y0 <=? y)%nat && (y <? y1)%nat then c else cell g x y.
Proof.
  intros Hw Hy1 g'. destruct (fill_rows_list g (seq y0 (y1 - y0)) c Hw) as (W & R & Cc & Hc).
  { intros y Hy. apply in_seq in Hy. lia. }
  unfold g', fill_rows. split; [exact W|]. split; [exact R|]. split; [exact Cc|].
  intros x y Hx Hy. rewrite Hc by auto.
  destruct (decide (y ∈ seq y0 (y1 - y0))) as [Hin|Hnin];
    rewrite list_elem_of_In, in_seq in *;
    destruct (y0 <=? y)%nat eqn:E1, (y <? y1)%nat eqn:E2;
    rewrite ?Nat.leb_le, ?Nat.leb_gt, ?Nat.ltb_lt, ?Nat.ltb_ge in *; simpl; try reflexivity; lia.
Qed.

Lemma map_rows (g : Grid C) (cb : C -> C) ys :
  wf g -> NoDup ys -> (forall y, In y ys -> (y < num_rows g)%nat) ->
  let g' := fold_left (fun g y =>
      fold_left (fun g x => set_cell g x y (cb (cell g x y))) (seq 0 (num_cols g)) g) ys g in
  wf g' /\ num_rows g' = num_rows g /\ num_cols g' = num_cols g /\
  forall px py, (px < num_cols g)%nat -> (py < num_rows g)%nat ->
    cell g' px py = if decide (py ∈ ys) then cb (cell g px py) else cell g px py.
Proof.
  revert g. induction ys as [|y ys IH]; intros g Hw Hnd Hys g'.
  - simpl in g'. subst g'. split; [|split; [|split]]; auto.
  - apply NoDup_cons in Hnd as [Hy Hnd].
    assert (Hy0 : (y < num_rows g)%nat) by (apply Hys; simpl; auto).
    destruct (seq_columns g) as [Hndx Hxs].
    destruct (column_loop (fun g x => set_cell g x y (cb (cell g x y)))
              (fun g x py => if (py =? y)%nat then cb (cell g x y) else cell g x py)
              (seq 0 (num_cols g)) g) as (W1 & R1 & C1 & Hc1); auto.
    + intros h x Wh Er Ec Hx. split; [apply set_cell_wf, Wh|]. split; [reflexivity|].
      split; [reflexivity|].
      intros px py Hpx Hpy. rewrite cell_set_cell_valid by (auto; lia).
      destruct (px =? x)%nat eqn:E0, (x =? px)%nat eqn:E1, (y =? py)%nat eqn:E2, (py =? y)%nat eqn:E3;
        rewrite ?Nat.eqb_eq, ?Nat.eqb_neq in *; simpl; subst; try reflexivity; lia.
    + intros h h' x Hcol py Hpy. destruct (py =? y)%nat; [f_equal; apply Hcol, Hy0|auto].
    + set (g1 := fold_left (fun g x => set_cell g x y (cb (cell g x y))) (seq 0 (num_cols g)) g) in *.
      destruct (IH g1 W1 Hnd) as (W & R & Cc & Hc).
      { intros y' Hy'. rewrite R1. apply Hys. simpl. auto. }
      subst g'. simpl. fold g1. split; [exact W|]. split; [congruence|]. split; [congruence|].
      intros px py Hpx Hpy. rewrite Hc by congruence.
      rewrite Hc1 by auto. rewrite (in_seq_if px (num_cols g)) by auto.
      destruct (decide (py ∈ ys)) as [Hin|Hnin].
      * assert (py <> y) by (intros ->; apply Hy, Hin).
        rewrite decide_True by (apply elem_of_cons; auto).
        destruct (py =? y)%nat eqn:E; [apply Nat.eqb_eq in E; contradiction|]. reflexivity.
      * destruct (py =? y)%nat eqn:E.
        -- apply Nat.eqb_eq in E. subst. rewrite decide_True by (apply elem_of_cons; auto). reflexivity.
        -- apply Nat.eqb_neq in E. rewrite decide_False; [reflexivity|].
           rewrite elem_of_cons. intros [?|?]; contradiction.
Qed.

(** X8: [map] applies the callback to every cell and keeps the shape. *)
Theorem map_spec (g : Grid C) (cb : C -> C) :
  wf g ->
  let g' := GridMore.map g cb in
  wf g' /\ num_rows g' = num_rows g /\ num_cols g' = num_cols g /\
  forall x y, (x < num_cols g)%nat -> (y < num_rows g)%nat -> cell g' x y = cb (cell g x y).
Proof.
  intros Hw g'. destruct (map_rows g cb (seq 0 (num_rows g)) Hw) as (W & R & Cc & Hc).
  - apply NoDup_seq.
  - intros y Hy. apply in_seq in Hy. lia.
  - unfold g', GridMore.map. split; [exact W|]. split; [exact R|]. split; [exact Cc|].
    intros x y Hx Hy. rewrite Hc by auto. rewrite decide_True by (apply in_seq_dec; auto). reflexivity.
Qed.



(** X2: [set_cell] then [cell]: the cell written reads back, every other
    cell keeps its value, and the grid keeps its shape. *)
Theorem set_cell_cell (g : Grid C) x y c :
  wf g -> (x < num_cols g)%nat -> (y < num_rows g)%nat ->
  let g' := set_cell g x y c in
  wf g' /\ num_rows g' = num_rows g /\ num_cols g' = num_cols g /\
  forall px py, (px < num_cols g)%nat -> (py < num_rows g)%nat ->
    cell g' px py = if (x =? px)%nat && (y =? py)%nat then c else cell g px py.
Proof.
  intros Hw Hx Hy g'. destruct (set_cell_dims g x y c) as [R Cc].
  split; [apply set_cell_wf; exact Hw|]. split; [exact R|]. split; [exact Cc|].
  intros px py Hpx Hpy. apply cell_set_cell_valid; assumption.
Qed.


(** X5: The three rotations, cell by cell: [rotate1] turns a quarter turn
    clockwise, [rotate2] a half turn, [rotate3] a quarter turn
    counter-clockwise; each swaps or keeps the dimensions accordingly. *)
Theorem rotate_cells (g : Grid C) :
  (wf (rotate1 g) /\ num_rows (rotate1 g) = num_cols g /\ num_cols (rotate1 g) = num_rows g /\
   forall a b, (a < num_rows g)%nat -> (b < num_cols g)%nat ->
     cell (rotate1 g) a b = cell g (num_cols g - 1 - b) a) /\
  (wf (rotate2 g) /\ num_rows (rotate2 g) = num_rows g /\ num_cols (rotate2 g) = num_cols g /\
   forall a b, (a < num_cols g)%nat -> (b < num_rows g)%nat ->
     cell (rotate2 g) a b = cell g (num_cols g - 1 - a) (num_rows g - 1 - b)) /\
  (wf (rotate3 g) /\ num_rows (rotate3 g) = num_cols g /\ num_cols (rotate3 g) = num_rows g /\
   forall a b, (a < num_rows g)%nat -> (b < num_cols g)%nat ->
     cell (rotate3 g) a b = cell g b (num_rows g - 1 - a)).
Proof. split; [apply rotate1_spec|split; [apply rotate2_spec|apply rotate3_spec]]. Qed.


(** X6: Two [rotate1] make a [rotate2], three make a [rotate3], four give
    the grid back. *)
Theorem rotate_compose (g : Grid C) :
  wf g ->
  rotate1 (rotate1 g) = rotate2 g /\ rotate1 (rotate2 g) = rotate3 g /\ rotate1 (rotate3 g) = g.
Proof. apply rotate_compose_eq. Qed.


(** X4: [reverse_rows] mirrors the grid top to bottom and keeps its shape;
    applying it twice gives the grid back. *)
Theorem reverse_rows_mirror (g : Grid C) :
  wf g ->
  wf (reverse_rows g) /\ num_rows (reverse_rows g) = num_rows g /\
  num_cols (reverse_rows g) = num_cols g /\
  (forall x y, (x < num_cols g)%nat -> (y < num_rows g)%nat ->
     cell (reverse_rows g) x y = cell g x (num_rows g - 1 - y)) /\
  reverse_rows (reverse_rows g) = g.
Proof.
  intros Hw. destruct (reverse_rows_spec g Hw) as (W & R & Cc & Hc).
  split; [exact W|split; [exact R|split; [exact Cc|split; [exact Hc|]]]].
  apply reverse_rows_involutive. exact Hw.
Qed.

End Cells.
End GridLaws.

Module OverlayLaws.
Import Grid GridFacts GridLaws LawDefs.
Section Cells.
Context {C : Type} `{Default C} `{IsEmpty C}.

Lemma check_overlay_cell_lor (g sub : Grid C) x y r sx sy :
  check_overlay_cell g sub x y r sx sy = Z.lor r (check_overlay_cell g sub x y 0 sx sy).
Proof.
  unfold check_overlay_cell.
  destruct (is_empty (cell sub sx sy)); [rewrite Z.lor_0_r; reflexivity|].
  destruct (_ || _); [reflexivity|].
  destruct (negb _); [reflexivity|]. rewrite Z.lor_0_r. reflexivity.
Qed.

Lemma check_overlay_cell_values (g sub : Grid C) x y sx sy :
  check_overlay_cell g sub x y 0 sx sy = 0 \/ check_overlay_cell g sub x y 0 sx sy = OVERFLOW \/
  check_overlay_cell g sub x y 0 sx sy = OVERLAP.
Proof.
  unfold check_overlay_cell.
  destruct (is_empty (cell sub sx sy)); [auto|].
  destruct (_ || _); [auto|]. destruct (negb _); auto.
Qed.


Lemma fold_lor_bits (h : nat * nat -> Z) (l : list (nat * nat)) (b1 b2 : bool) :
  (forall p, In p l -> h p = 0 \/ h p = OVERFLOW \/ h p = OVERLAP) ->
  fold_left (fun r p => Z.lor r (h p)) l (bits_of b1 b2) =
  bits_of (b1 || existsb (fun p => h p =? OVERFLOW) l) (b2 || existsb (fun p => h p =? OVERLAP) l).
Proof.
  revert b1 b2. induction l as [|p l IH]; intros b1 b2 Hl; simpl.
  - rewrite !orb_false_r. reflexivity.
  - assert (Hp : h p = 0 \/ h p = OVERFLOW \/ h p = OVERLAP) by (apply Hl; simpl; auto).
    assert (Hl' : forall p, In p l -> h p = 0 \/ h p = OVERFLOW \/ h p = OVERLAP)
      by (intros; apply Hl; simpl; auto).
    destruct Hp as [E|[E|E]]; rewrite E.
    + replace (Z.lor (bits_of b1 b2) 0) with (bits_of b1 b2) by (rewrite Z.lor_0_r; reflexivity).
      rewrite IH by exact Hl'. reflexivity.
    + replace (Z.lor (bits_of b1 b2) OVERFLOW) with (bits_of true b2)
        by (destruct b1, b2; reflexivity).
      rewrite IH by exact Hl'. destruct b1; reflexivity.
    + replace (Z.lor (bits_of b1 b2) OVERLAP) with (bits_of b1 true)
        by (destruct b1, b2; reflexivity).
      rewrite IH by exact Hl'. destruct b2; simpl; rewrite ?orb_true_r; reflexivity.
Qed.

Lemma check_overlay_as_bits (g sub : Grid C) x y :
  check_overlay g x y sub =
  bits_of (existsb (fun p => check_overlay_cell g sub x y 0 (fst p) (snd p) =? OVERFLOW)
             (pairs (num_cols sub) (num_rows sub)))
          (existsb (fun p => check_overlay_cell g sub x y 0 (fst p) (snd p) =? OVERLAP)
             (pairs (num_cols sub) (num_rows sub))).
Proof.
  unfold check_overlay.
  rewrite (fold2_flat (fun r sx sy => check_overlay_cell g sub x y r sx sy)).
  change 0 with (bits_of false false).
  rewrite (fold_left_ext_in _ (fun r p => Z.lor r (check_overlay_cell g sub x y 0 (fst p) (snd p))))
    by (intros; apply check_overlay_cell_lor).
  rewrite fold_lor_bits by (intros; apply check_overlay_cell_values). reflexivity.
Qed.

(** X10: [check_overlay] sets OVERFLOW exactly when a non-empty cell of
    [sub] lands outside the grid, sets OVERLAP exactly when one lands on a
    non-empty cell inside it, and sets no other bit. *)
Theorem check_overlay_flags (g sub : Grid C) x y :
  let r := check_overlay g x y sub in
  (flags_contains r OVERFLOW = true <->
     exists sx sy, (sx < num_cols sub)%nat /\ (sy < num_rows sub)%nat /\
       is_empty (cell sub sx sy) = false /\
       ((x + Z.of_nat sx <? 0) || (Z.of_nat (num_cols g) <=? x + Z.of_nat sx)
        || (y + Z.of_nat sy <? 0) || (Z.of_nat (num_rows g) <=? y + Z.of_nat sy)) = true) /\
  (flags_contains r OVERLAP = true <->
     exists sx sy, (sx < num_cols sub)%nat /\ (sy < num_rows sub)%nat /\
       is_empty (cell sub sx sy) = false /\
       ((x + Z.of_nat sx <? 0) || (Z.of_nat (num_cols g) <=? x + Z.of_nat sx)
        || (y + Z.of_nat sy <? 0) || (Z.of_nat (num_rows g) <=? y + Z.of_nat sy)) = false /\
       is_empty (cell g (Z.to_nat (x + Z.of_nat sx)) (Z.to_nat (y + Z.of_nat sy))) = false) /\
  Z.land r (Z.lor OVERFLOW OVERLAP) = r.
Proof.
  intros r. subst r. rewrite check_overlay_as_bits.
  set (b1 := existsb _ _). set (b2 := existsb _ _).
  assert (F1 : flags_contains (bits_of b1 b2) OVERFLOW = b1) by (destruct b1, b2; reflexivity).
  assert (F2 : flags_contains (bits_of b1 b2) OVERLAP = b2) by (destruct b1, b2; reflexivity).
  rewrite F1, F2. split; [|split]; [| |destruct b1, b2; reflexivity].
  - subst b1. rewrite existsb_exists. split.
    + intros ([sx sy] & Hin & Hv). apply in_pairs in Hin as [Hsx Hsy]. simpl in Hv.
      exists sx, sy. split; [auto|]. split; [auto|].
      unfold check_overlay_cell in Hv.
      destruct (is_empty (cell sub sx sy)); [discriminate|]. split; [reflexivity|].
      destruct (_ || _); [reflexivity|]. destruct (negb _); discriminate.
    + intros (sx & sy & Hsx & Hsy & He & Ho). exists (sx, sy). split; [apply in_pairs; auto|].
      simpl. unfold check_overlay_cell. rewrite He, Ho. reflexivity.
  - subst b2. rewrite existsb_exists. split.
    + intros ([sx sy] & Hin & Hv). apply in_pairs in Hin as [Hsx Hsy]. simpl in Hv.
      exists sx, sy. split; [auto|]. split; [auto|].
      unfold check_overlay_cell in Hv.
      destruct (is_empty (cell sub sx sy)); [discriminate|]. split; [reflexivity|].
      destruct (_ || _); [discriminate|]. split; [reflexivity|].
      destruct (is_empty (cell g _ _)); [discriminate|reflexivity].
    + intros (sx & sy & Hsx & Hsy & He & Ho & Hg). exists (sx, sy). split; [apply in_pairs; auto|].
      simpl. unfold check_overlay_cell. rewrite He, Ho, Hg. reflexivity.
Qed.

Lemma overlay_cell_unfold (sub h : Grid C) x y r sx sy :
  overlay_cell sub x y (h, r) sx sy =
  ((if negb (is_empty (cell sub sx sy))
       && negb ((x + Z.of_nat sx <? 0) || (Z.of_nat (num_cols h) <=? x + Z.of_nat sx)
                || (y + Z.of_nat sy <? 0) || (Z.of_nat (num_rows h) <=? y + Z.of_nat sy))
       && is_empty (cell h (Z.to_nat (x + Z.of_nat sx)) (Z.to_nat (y + Z.of_nat sy)))
    then set_cell h (Z.to_nat (x + Z.of_nat sx)) (Z.to_nat (y + Z.of_nat sy)) (cell sub sx sy)
    else h),
   check_overlay_cell h sub x y r sx sy).
Proof.
  unfold overlay_cell, check_overlay_cell.
  destruct (is_empty (cell sub sx sy)); [reflexivity|]. simpl.
  destruct (_ || _); [reflexivity|]. simpl.
  destruct (is_empty (cell h _ _)); reflexivity.
Qed.

Lemma check_overlay_cell_agree (h h' sub : Grid C) x y r sx sy :
  num_rows h = num_rows h' -> num_cols h = num_cols h' ->
  ((x + Z.of_nat sx <? 0) || (Z.of_nat (num_cols h) <=? x + Z.of_nat sx)
   || (y + Z.of_nat sy <? 0) || (Z.of_nat (num_rows h) <=? y + Z.of_nat sy) = false ->
   cell h (Z.to_nat (x + Z.of_nat sx)) (Z.to_nat (y + Z.of_nat sy))
   = cell h' (Z.to_nat (x + Z.of_nat sx)) (Z.to_nat (y + Z.of_nat sy))) ->
  check_overlay_cell h sub x y r sx sy = check_overlay_cell h' sub x y r sx sy.
Proof.
  intros Er Ec Hag. unfold check_overlay_cell. rewrite <- Er, <- Ec.
  destruct (is_empty (cell sub sx sy)); [reflexivity|].
  destruct (_ || _) eqn:E; [reflexivity|]. rewrite Hag by reflexivity. reflexivity.
Qed.

Section Loop.
Variables (sub : Grid C) (x y : Z).


Lemma overlay_loop (l : list (nat * nat)) (h : Grid C) r :
  wf h -> NoDup l ->
  let st := fold_left (fun st p => overlay_cell sub x y st (fst p) (snd p)) l (h, r) in
  snd st = fold_left (fun r p => check_overlay_cell h sub x y r (fst p) (snd p)) l r /\
  wf (fst st) /\ num_rows (fst st) = num_rows h /\ num_cols (fst st) = num_cols h /\
  forall px py, (px < num_cols h)%nat -> (py < num_rows h)%nat ->
    cell (fst st) px py =
      if (x <=? Z.of_nat px) && (y <=? Z.of_nat py) && bool_decide (overlay_src x y px py ∈ l)
         && negb (is_empty (cell sub (fst (overlay_src x y px py)) (snd (overlay_src x y px py))))
         && is_empty (cell h px py)
      then cell sub (fst (overlay_src x y px py)) (snd (overlay_src x y px py)) else cell h px py.
Proof.
  revert h r. induction l as [|[sx sy] l IH]; intros h r Hw Hnd st.
  - subst st. simpl. split; [reflexivity|]. split; [exact Hw|]. split; [reflexivity|].
    split; [reflexivity|]. intros px py _ _.
    try rewrite bool_decide_false by (apply not_elem_of_nil). rewrite ?andb_false_r. simpl.
    reflexivity.
  - apply NoDup_cons in Hnd as [Hnin Hnd].
    subst st. cbn [fold_left fst snd]. rewrite overlay_cell_unfold.
    set (tx := (x + Z.of_nat sx)). set (ty := (y + Z.of_nat sy)).
    set (oob := (tx <? 0) || (Z.of_nat (num_cols h) <=? tx) || (ty <? 0) || (Z.of_nat (num_rows h) <=? ty)).
    set (w := negb (is_empty (cell sub sx sy)) && negb oob && is_empty (cell h (Z.to_nat tx) (Z.to_nat ty))).
    set (h1 := if w then set_cell h (Z.to_nat tx) (Z.to_nat ty) (cell sub sx sy) else h).
    assert (W1 : wf h1) by (unfold h1; destruct w; [apply set_cell_wf|]; exact Hw).
    assert (D1 : num_rows h1 = num_rows h /\ num_cols h1 = num_cols h) by (unfold h1; destruct w; auto).
    destruct D1 as [R1 C1].
    (* [h1] agrees with [h] away from the target of [(sx, sy)]. *)
    assert (Hh1 : forall px py, (px < num_cols h)%nat -> (py < num_rows h)%nat ->
      cell h1 px py = if w && (Z.of_nat px =? tx) && (Z.of_nat py =? ty) then cell sub sx sy
                      else cell h px py).
    { intros px py Hpx Hpy. unfold h1. destruct w eqn:Ew; [|reflexivity].
      unfold w, oob in Ew. apply andb_prop in Ew as [Ew Ee]. apply andb_prop in Ew as [_ Eo].
      apply negb_true_iff in Eo. rewrite !orb_false_iff, !Z.ltb_ge, !Z.leb_gt in Eo.
      rewrite cell_set_cell_valid by (auto; lia). simpl.
      destruct (Z.to_nat tx =? px)%nat eqn:E1, (Z.to_nat ty =? py)%nat eqn:E2,
        (Z.of_nat px =? tx) eqn:E3, (Z.of_nat py =? ty) eqn:E4;
        rewrite ?Nat.eqb_eq, ?Nat.eqb_neq, ?Z.eqb_eq, ?Z.eqb_neq in *; simpl; try reflexivity; lia. }
    destruct (IH h1 (check_overlay_cell h sub x y r sx sy) W1 Hnd) as (Hr & W & R & Cc & Hc).
    split; [|split; [exact W|split; [congruence|split; [congruence|]]]].
    + rewrite Hr. simpl. apply fold_left_ext_in. intros r' [sx' sy'] Hin. simpl.
      apply check_overlay_cell_agree; [exact R1|exact C1|]. intros Hb.
      rewrite orb_false_iff, orb_false_iff, orb_false_iff, Z.ltb_ge, Z.ltb_ge, Z.leb_gt, Z.leb_gt in Hb.
      rewrite R1, C1 in Hb.
      rewrite Hh1 by lia.
      destruct (w && _ && _) eqn:E; [|reflexivity].
      apply andb_prop in E as [E E4]. apply andb_prop in E as [_ E3].
      apply Z.eqb_eq in E3, E4. rewrite Z2Nat.id in E3, E4 by lia.
      exfalso. apply Hnin. apply list_elem_of_In.
      assert (sx' = sx) by (unfold tx in E3; lia). assert (sy' = sy) by (unfold ty in E4; lia).
      subst. exact Hin.
    + intros px py Hpx Hpy. rewrite Hc by congruence.
      destruct (decide (overlay_src x y px py ∈ l)) as [Hin|Hout].
      * rewrite bool_decide_true by exact Hin. rewrite bool_decide_true by (apply elem_of_cons; auto).
        (* [(px, py)] is not the target of [(sx, sy)]. *)
        assert (Hne : cell h1 px py = cell h px py).
        { rewrite Hh1 by auto. destruct (w && _ && _) eqn:E; [|reflexivity].
          apply andb_prop in E as [E E4]. apply andb_prop in E as [_ E3].
          apply Z.eqb_eq in E3, E4. exfalso. apply Hnin.
          assert (Hs : overlay_src x y px py = (sx, sy)) by (unfold overlay_src, tx, ty in *; f_equal; lia).
          rewrite <- Hs. exact Hin. }
        rewrite Hne. reflexivity.
      * rewrite (bool_decide_eq_false_2 _ Hout).
        rewrite !andb_false_r. simpl. rewrite Hh1 by auto.
        destruct (decide (overlay_src x y px py = (sx, sy) /\ x <= Z.of_nat px /\ y <= Z.of_nat py)) as [[Hs [Hx Hy]]|Hs].
        -- rewrite bool_decide_true by (rewrite Hs; apply elem_of_cons; auto).
           assert (Ex : Z.of_nat px = tx) by (unfold overlay_src, tx in *; injection Hs; lia).
           assert (Ey : Z.of_nat py = ty) by (unfold overlay_src, ty in *; injection Hs; lia).
           rewrite Ex, Ey, !Z.eqb_refl.
           replace (Z.to_nat (tx - x)) with sx by (unfold tx; lia).
           replace (Z.to_nat (ty - y)) with sy by (unfold ty; lia).
           replace (x <=? tx) with true by (unfold tx; lia).
           replace (y <=? ty) with true by (unfold ty; lia). simpl.
           unfold w, oob. rewrite <- Ex, <- Ey, !Nat2Z.id.
           replace ((Z.of_nat px <? 0) || (Z.of_nat (num_cols h) <=? Z.of_nat px) || (Z.of_nat py <? 0)
                    || (Z.of_nat (num_rows h) <=? Z.of_nat py)) with false by lia.
           simpl. destruct (is_empty (cell sub sx sy)), (is_empty (cell h px py)); reflexivity.
        -- assert (Hw3 : (w && (Z.of_nat px =? tx) && (Z.of_nat py =? ty)) = false).
           { destruct (w && (Z.of_nat px =? tx) && (Z.of_nat py =? ty)) eqn:E; [|reflexivity].
             exfalso. apply andb_prop in E as [E E4]. apply andb_prop in E as [_ E3].
             apply Z.eqb_eq in E3, E4. apply Hs. unfold overlay_src, tx, ty in *.
             split; [f_equal; lia|lia]. }
           rewrite Hw3.
           destruct ((x <=? Z.of_nat px) && (y <=? Z.of_nat py)) eqn:Exy; simpl; [|reflexivity].
           apply andb_prop in Exy as [Ex1 Ey1]. apply Z.leb_le in Ex1, Ey1.
           rewrite bool_decide_false; [simpl; reflexivity|].
           rewrite elem_of_cons. intros [E|E]; [|contradiction].
           apply Hs. split; [exact E|lia].
Qed.

End Loop.

Lemma overlay_facts (g sub : Grid C) x y :
  wf g ->
  let '(g', r) := overlay g x y sub in
  r = check_overlay g x y sub /\
  wf g' /\ num_rows g' = num_rows g /\ num_cols g' = num_cols g /\
  forall px py, (px < num_cols g)%nat -> (py < num_rows g)%nat ->
    cell g' px py =
      let sx := Z.of_nat px - x in
      let sy := Z.of_nat py - y in
      if (0 <=? sx) && (sx <? Z.of_nat (num_cols sub)) && (0 <=? sy) && (sy <? Z.of_nat (num_rows sub))
         && negb (is_empty (cell sub (Z.to_nat sx) (Z.to_nat sy)))
         && is_empty (cell g px py)
      then cell sub (Z.to_nat sx) (Z.to_nat sy) else cell g px py.
Proof.
  intros Hw.
  assert (Ho : overlay g x y sub =
               fold_left (fun st p => overlay_cell sub x y st (fst p) (snd p))
                 (pairs (num_cols sub) (num_rows sub)) (g, 0)).
  { unfold overlay. apply (fold2_flat (fun st sx sy => overlay_cell sub x y st sx sy)). }
  assert (Hnd : NoDup (pairs (num_cols sub) (num_rows sub))) by apply pairs_NoDup.
  destruct (overlay_loop sub x y (pairs (num_cols sub) (num_rows sub)) g 0 Hw Hnd)
    as (Hr & W & R & Cc & Hc).
  rewrite Ho. destruct (fold_left _ _ _) as [g' r] eqn:E. simpl in *.
  split; [|split; [exact W|split; [exact R|split; [exact Cc|]]]].
  - rewrite Hr. unfold check_overlay.
    symmetry. apply (fold2_flat (fun r sx sy => check_overlay_cell g sub x y r sx sy)).
  - intros px py Hpx Hpy. rewrite Hc by auto. cbv zeta.
    unfold overlay_src. simpl.
    destruct (bool_decide ((Z.to_nat (Z.of_nat px - x), Z.to_nat (Z.of_nat py - y))
                            ∈ pairs (num_cols sub) (num_rows sub))) eqn:Eb.
    + apply bool_decide_eq_true, list_elem_of_In, in_pairs in Eb.
      destruct (x <=? Z.of_nat px) eqn:E1, (y <=? Z.of_nat py) eqn:E2,
        (0 <=? Z.of_nat px - x) eqn:E3, (0 <=? Z.of_nat py - y) eqn:E4;
        rewrite ?Z.leb_le, ?Z.leb_gt in *; simpl; try lia;
        replace (Z.of_nat px - x <? Z.of_nat (num_cols sub)) with true by lia;
        replace (Z.of_nat py - y <? Z.of_nat (num_rows sub)) with true by lia; reflexivity.
    + apply bool_decide_eq_false in Eb. rewrite list_elem_of_In, in_pairs in Eb.
      rewrite !andb_false_r. simpl.
      destruct (0 <=? Z.of_nat px - x) eqn:E3, (0 <=? Z.of_nat py - y) eqn:E4,
        (Z.of_nat px - x <? Z.of_nat (num_cols sub)) eqn:E5, (Z.of_nat py - y <? Z.of_nat (num_rows sub)) eqn:E6;
        rewrite ?Z.leb_le, ?Z.leb_gt, ?Z.ltb_lt, ?Z.ltb_ge in *; simpl; try reflexivity.
      exfalso. apply Eb. lia.
Qed.


(** X11: [overlay] returns the flags of [check_overlay] and writes each
    non-empty cell of [sub] onto an empty in-bounds cell of the grid; every
    other cell is left as it was. *)
Theorem overlay_spec (g sub : Grid C) x y :
  wf g ->
  let '(g', r) := overlay g x y sub in
  r = check_overlay g x y sub /\
  wf g' /\ num_rows g' = num_rows g /\ num_cols g' = num_cols g /\
  forall px py, (px < num_cols g)%nat -> (py < num_rows g)%nat ->
    cell g' px py =
      let sx := Z.of_nat px - x in
      let sy := Z.of_nat py - y in
      if (0 <=? sx) && (sx <? Z.of_nat (num_cols sub)) && (0 <=? sy) && (sy <? Z.of_nat (num_rows sub))
         && negb (is_empty (cell sub (Z.to_nat sx) (Z.to_nat sy)))
         && is_empty (cell g px py)
      then cell sub (Z.to_nat sx) (Z.to_nat sy) else cell g px py.
Proof. apply overlay_facts. Qed.

End Cells.
End OverlayLaws.

Module TowardLaws.
Import Grid GridFacts GridFacts2 GridLaws.
Section Cells.
Context {C : Type} `{Default C} `{IsEmpty C}.

Lemma toward_loop_first (g sub : Grid C) dx dy fuel :
  forall tx ty n0 n r, toward_loop fuel g sub dx dy tx ty n0 = Some (n, r) ->
  (n0 <= n)%nat /\ r <> 0 /\
  r = check_overlay g (tx + Z.of_nat (n - n0) * dx) (ty + Z.of_nat (n - n0) * dy) sub /\
  forall k, (k < n - n0)%nat -> check_overlay g (tx + Z.of_nat k * dx) (ty + Z.of_nat k * dy) sub = 0.
Proof.
  induction fuel as [|fuel IH]; intros tx ty n0 n r E; simpl in E; [discriminate|].
  destruct (flags_is_empty (check_overlay g tx ty sub)) eqn:Ee; simpl in E.
  - apply IH in E as (Hle & Hr & Hc & Hk). unfold flags_is_empty in Ee. apply Z.eqb_eq in Ee.
    split; [lia|]. split; [exact Hr|]. split.
    + rewrite Hc. replace (Z.of_nat (n - n0)) with (Z.of_nat (n - S n0) + 1) by lia.
      f_equal; ring.
    + intros [|k] Hk'.
      * simpl. rewrite !Z.add_0_r. exact Ee.
      * rewrite <- (Hk k) by lia. rewrite Nat2Z.inj_succ. f_equal; ring.
  - injection E as <- <-. unfold flags_is_empty in Ee. apply Z.eqb_neq in Ee.
    rewrite Nat.sub_diag. simpl. rewrite !Z.add_0_r. split; [lia|]. split; [exact Ee|].
    split; [reflexivity|]. intros; lia.
Qed.

(** X12: A result [(n, r)] of [check_overlay_toward] is the first step that
    collides: [r] is the non-zero [check_overlay] at step [n], and every
    earlier step is free. *)
Theorem check_overlay_toward_first_hit (g sub : Grid C) fuel x y dx dy n r :
  check_overlay_toward fuel g x y sub dx dy = Ret (n, r) ->
  r <> 0 /\ r = check_overlay g (x + Z.of_nat n * dx) (y + Z.of_nat n * dy) sub /\
  forall k, (k < n)%nat -> check_overlay g (x + Z.of_nat k * dx) (y + Z.of_nat k * dy) sub = 0.
Proof.
  unfold check_overlay_toward. destruct (negb _); [discriminate|].
  destruct (toward_loop fuel g sub dx dy x y 0) as [[n' r']|] eqn:E; [|discriminate].
  intros Er. injection Er as <- <-. apply toward_loop_first in E as (_ & Hr & Hc & Hk).
  rewrite Nat.sub_0_r in *. auto.
Qed.

Lemma num_filled_rows_count (g : Grid C) ys n :
  fold_left (fun n y => if is_row_filled g y then S n else n) ys n
  = (n + length (List.filter (is_row_filled g) ys))%nat.
Proof.
  revert n. induction ys as [|y ys IH]; intros n; simpl; [lia|].
  destruct (is_row_filled g y); rewrite IH; simpl; lia.
Qed.

Lemma pluck_loop_none_filled (g : Grid C) ys :
  (forall y, In y ys -> (y < num_rows g)%nat /\ is_row_filled g y = false) ->
  pluck_loop ys 0 g = (g, 0%nat).
Proof.
  induction ys as [|y ys IH]; intros Hys; simpl; [reflexivity|].
  destruct (Hys y ltac:(simpl; auto)) as [Hy ->]. simpl.
  replace (y =? num_rows g - 0)%nat with false by (symmetry; apply Nat.eqb_neq; lia).
  apply IH. intros; apply Hys; simpl; auto.
Qed.

(** X9: [pluck_filled_rows] on a grid with no filled row changes nothing and
    returns 0. *)
Theorem pluck_filled_rows_none_filled (g : Grid C) placeholder :
  GridMore.num_filled_rows g = 0%nat -> pluck_filled_rows g placeholder = (g, 0%nat).
Proof.
  unfold GridMore.num_filled_rows. rewrite num_filled_rows_count. simpl. intros Hl.
  assert (Hf : forall y, In y (seq 0 (num_rows g)) -> (y < num_rows g)%nat /\ is_row_filled g y = false).
  { intros y Hy. split; [apply in_seq in Hy; lia|].
    destruct (is_row_filled g y) eqn:E; [|reflexivity]. exfalso.
    apply length_zero_iff_nil in Hl.
    assert (Hin : In y (List.filter (is_row_filled g) (seq 0 (num_rows g)))) by (apply filter_In; auto).
    rewrite Hl in Hin. destruct Hin. }
  unfold pluck_filled_rows. rewrite pluck_loop_none_filled by exact Hf.
  destruct placeholder as [c|]; [|reflexivity].
  unfold fill_rows. rewrite Nat.sub_0_r, Nat.sub_diag. reflexivity.
Qed.

End Cells.
End TowardLaws.

Module DropLaws.
Import Grid GridFacts GridFacts2 GridLaws Common.
Section WithPiece.
Context {P : Type} `{Piece P}.


End WithPiece.
End DropLaws.

Module CounterLaws.
Import InputCounter Debounce LawDefs.
Local Open Scope N_scope.


Lemma after_frames_no_repeat (d : N) (k : nat) :
  after_frames (InputCounter.new 0 d) (S k) =
  mkInputCounter 0 (eff_delay 0 d) End false (k =? 0)%nat 0.
Proof.
  induction k as [|k IH].
  - unfold after_frames, frame, InputCounter.new, eff_delay. simpl.
    destruct (d =? 0); reflexivity.
  - rewrite DebounceFacts.after_frames_S, IH. reflexivity.
Qed.

Lemma after_frames_repeat_gen (r d : N) (k : nat) :
  r <> 0 ->
  after_frames (InputCounter.new r d) (S k) =
  if N.of_nat (S k) <=? eff_delay r d
  then mkInputCounter r (eff_delay r d) Delay false (k =? 0)%nat (N.of_nat k)
  else mkInputCounter r (eff_delay r d) Repeat false
         ((N.of_nat k - eff_delay r d) mod r =? 0) ((N.of_nat k - eff_delay r d) mod r).
Proof.
  intros Hr. assert (Hd : eff_delay r d <> 0) by (unfold eff_delay; destruct (N.eqb_spec d 0); lia).
  set (d' := eff_delay r d) in *.
  induction k as [|k IH].
  - unfold after_frames, frame, InputCounter.new. fold d'.
    unfold update, handle; simpl.
    replace (r =? 0) with false by (symmetry; apply N.eqb_neq; exact Hr). simpl.
    change (N.of_nat 1) with 1.
    replace (1 <=? d') with true by (symmetry; apply N.leb_le; lia). reflexivity.
  - rewrite DebounceFacts.after_frames_S, IH.
    destruct (N.of_nat (S k) <=? d') eqn:E1.
    + apply N.leb_le in E1. unfold frame, update, handle; simpl.
      replace (N.of_nat k + 1) with (N.of_nat (S k)) by lia.
      destruct (N.of_nat (S k) =? d') eqn:E2.
      * apply N.eqb_eq in E2. simpl.
        replace (N.of_nat (S (S k)) <=? d') with false by (symmetry; apply N.leb_gt; lia).
        replace (N.of_nat (S k) - d') with 0 by lia. rewrite N.Div0.mod_0_l. reflexivity.
      * apply N.eqb_neq in E2. simpl.
        replace (N.of_nat (S (S k)) <=? d') with true by (symmetry; apply N.leb_le; lia).
        reflexivity.
    + apply N.leb_gt in E1. unfold frame, update, handle; simpl.
      replace (N.of_nat (S (S k)) <=? d') with false by (symmetry; apply N.leb_gt; lia).
      replace (N.of_nat (S k) - d') with (N.of_nat k - d' + 1) by lia.
      rewrite N.Div0.add_mod_idemp_l.
      destruct ((N.of_nat k - d' + 1) mod r =? 0); reflexivity.
Qed.


(** X15: The schedule of [handle()] for a bit held from frame 1, for every
    option pair [(repeat, first_delay)]: frame 1, then, when [repeat <> 0],
    every frame [k + 1] with [k >= d] and [(k - d) mod repeat = 0], where
    [d] is the stored first delay. *)
Theorem handled_on_frame_schedule (r d : N) (k : nat) :
  handled_on_frame (InputCounter.new r d) (S k) =
  if r =? 0 then (k =? 0)%nat
  else (k =? 0)%nat || ((eff_delay r d <=? N.of_nat k) && ((N.of_nat k - eff_delay r d) mod r =? 0)).
Proof.
  unfold handled_on_frame. replace (S k - 1)%nat with k by lia.
  destruct (N.eqb_spec r 0) as [->|Hr].
  - destruct k as [|k].
    + unfold after_frames, frame, InputCounter.new, update, handle. simpl. reflexivity.
    + rewrite after_frames_no_repeat. reflexivity.
  - assert (Hd : eff_delay r d <> 0) by (unfold eff_delay; destruct (N.eqb_spec d 0); lia).
    destruct k as [|k].
    + unfold after_frames, frame, InputCounter.new, update, handle. simpl.
      replace (r =? 0) with false by (symmetry; apply N.eqb_neq; exact Hr). reflexivity.
    + rewrite after_frames_repeat_gen by exact Hr. simpl orb.
      destruct (N.of_nat (S k) <=? eff_delay r d) eqn:E1.
      * apply N.leb_le in E1. unfold frame, update, handle; simpl.
        replace (N.of_nat k + 1) with (N.of_nat (S k)) by lia.
        destruct (N.of_nat (S k) =? eff_delay r d) eqn:E2.
        -- apply N.eqb_eq in E2. rewrite E2, N.leb_refl, N.sub_diag, N.Div0.mod_0_l. reflexivity.
        -- apply N.eqb_neq in E2. replace (eff_delay r d <=? N.of_nat (S k)) with false
             by (symmetry; apply N.leb_gt; lia). reflexivity.
      * apply N.leb_gt in E1. unfold frame, update, handle; simpl.
        replace (eff_delay r d <=? N.of_nat (S k)) with true by (symmetry; apply N.leb_le; lia).
        replace (N.of_nat (S k) - eff_delay r d) with (N.of_nat k - eff_delay r d + 1) by lia.
        rewrite N.Div0.add_mod_idemp_l.
        destruct ((N.of_nat k - eff_delay r d + 1) mod r =? 0); reflexivity.
Qed.


Lemma counter_inv_update r d' c active :
  (r <> 0 -> d' <> 0) -> counter_inv r d' c -> counter_inv r d' (update c active).
Proof.
  intros Hd (Er & Ed & Hi & Hdl & Hrp). unfold update.
  destruct active; simpl.
  2: { unfold counter_inv; simpl. repeat split; auto; discriminate. }
  destruct (can_handle c && negb (is_handled c)); [unfold counter_inv; auto|].
  destruct (state c) eqn:Es.
  - rewrite (Hi eq_refl), Er.
    destruct (r =? 0) eqn:E; [apply N.eqb_eq in E|apply N.eqb_neq in E]; unfold counter_inv; simpl; rewrite ?Er, ?Ed;
      repeat split; intros; try discriminate; auto.
    specialize (Hd E). lia.
  - destruct (Hdl eq_refl) as [Hr Hn].
    destruct (n c + 1 =? opt_first_delay c) eqn:E; unfold counter_inv; simpl; rewrite Er, Ed;
      repeat split; auto; try discriminate; try lia.
    apply N.eqb_neq in E. lia.
  - destruct (Hrp eq_refl) as [Hr Hn]. unfold counter_inv; simpl. rewrite Er, Ed.
    repeat split; auto; try discriminate. apply N.mod_lt. exact Hr.
  - unfold counter_inv; simpl. rewrite Er, Ed. repeat split; auto; discriminate.
Qed.

Lemma counter_inv_handle r d' c : counter_inv r d' c -> counter_inv r d' (snd (handle c)).
Proof.
  intros Hc. unfold handle. destruct (can_handle c); [|exact Hc].
  destruct Hc as (Er & Ed & Hi & Hdl & Hrp). unfold counter_inv; simpl. auto.
Qed.

Lemma drive_counter_inv (r d : N) (acts : list (bool * bool)) :
  let c := drive (InputCounter.new r d) acts in
  opt_repeat c = r /\ opt_first_delay c = eff_delay r d /\
  (state c = Inactive -> n c = 0) /\
  (state c = Delay -> r <> 0 /\ n c < eff_delay r d) /\
  (state c = Repeat -> r <> 0 /\ n c < r).
Proof.
  assert (Hd : r <> 0 -> eff_delay r d <> 0) by (unfold eff_delay; destruct (N.eqb_spec d 0); lia).
  assert (H0 : counter_inv r (eff_delay r d) (InputCounter.new r d)).
  { unfold counter_inv, InputCounter.new; simpl. repeat split; auto; discriminate. }
  cbv zeta. revert H0. generalize (InputCounter.new r d) as c.
  induction acts as [|[active h] acts IH]; intros c Hc; simpl; [exact Hc|].
  apply IH. destruct h; [apply counter_inv_handle|]; apply counter_inv_update; auto.
Qed.


(** X16: Driven by any sequence of [update] and [handle] calls, a counter
    keeps its options and its [n] stays below the bound of its state, so its
    [u8] additions never overflow and [Repeat] is only reached with [repeat
    <> 0]. *)
Theorem drive_invariant (r d : N) (acts : list (bool * bool)) :
  let c := drive (InputCounter.new r d) acts in
  opt_repeat c = r /\ opt_first_delay c = eff_delay r d /\
  (state c = Inactive -> n c = 0) /\
  (state c = Delay -> r <> 0 /\ n c < eff_delay r d) /\
  (state c = Repeat -> r <> 0 /\ n c < r).
Proof. apply drive_counter_inv. Qed.

(** X17: Releasing the bit ([update(false)]) brings a counter back to the
    state [new] made, whatever calls came before. *)
Theorem release_resets (r d : N) (acts : list (bool * bool)) :
  update (drive (InputCounter.new r d) acts) false = InputCounter.new r d.
Proof.
  destruct (drive_counter_inv r d acts) as (Er & Ed & _). unfold update; simpl.
  rewrite Er, Ed. reflexivity.
Qed.

End CounterLaws.

Module ManagerLaws.
Import InputCounter InputManagerMore.

Lemma get_filter (m : InputManager) i j :
  j <> i -> get (List.filter (fun '(k, _) => negb (k =? i)) m) j = get m j.
Proof.
  intros Hji. induction m as [|[k c] m IH]; simpl; [reflexivity|].
  destruct (k =? i) eqn:E1; simpl.
  - apply Z.eqb_eq in E1. subst k. replace (i =? j) with false by (symmetry; apply Z.eqb_neq; lia).
    exact IH.
  - destruct (k =? j); [reflexivity|exact IH].
Qed.

Lemma get_register_eq (m : InputManager) i c j :
  get (register m i c) j = if j =? i then Some c else get m j.
Proof.
  unfold register. simpl. rewrite Z.eqb_sym. destruct (j =? i) eqn:E; [reflexivity|].
  apply get_filter. apply Z.eqb_neq, E.
Qed.


(** X18: [register] then [get]: the registered input maps to its counter,
    the others to what they had. *)
Theorem get_register (m : InputManager) i c j :
  get (register m i c) j = if j =? i then Some c else get m j.
Proof. apply get_register_eq. Qed.

Lemma handle_clears (c : InputCounter) : can_handle (snd (handle c)) = false.
Proof. unfold handle. destruct (can_handle c) eqn:E; [reflexivity|exact E]. Qed.

(** X20: [InputManager::handle] returns [can_handle] of the input's counter
    (false for an unregistered input, which changes nothing), clears the
    input's [can_handle], and touches no other counter. *)
Theorem mgr_handle_spec (m : InputManager) i :
  fst (mgr_handle m i) = mgr_can_handle m i /\
  (get m i = None -> mgr_handle m i = (false, m)) /\
  mgr_can_handle (snd (mgr_handle m i)) i = false /\
  forall j, get (snd (mgr_handle m i)) j =
            if j =? i then option_map (fun c => snd (handle c)) (get m j) else get m j.
Proof.
  unfold mgr_can_handle.
  induction m as [|[k c] m IH]; simpl.
  - split; [reflexivity|]. split; [reflexivity|]. split; [reflexivity|].
    intros j. destruct (j =? i); reflexivity.
  - destruct IH as (IH1 & IH2 & IH3 & IH4). destruct (k =? i) eqn:Eki.
    + apply Z.eqb_eq in Eki. subst k. destruct (handle c) as [b c'] eqn:Eh. simpl.
      rewrite Z.eqb_refl. split; [|split; [discriminate|split]].
      * unfold handle in Eh. destruct (can_handle c); injection Eh; auto.
      * replace c' with (snd (handle c)) by (rewrite Eh; reflexivity). apply handle_clears.
      * intros j. destruct (Z.eqb_spec j i) as [->|Hne].
        -- rewrite Z.eqb_refl. simpl. rewrite Eh. reflexivity.
        -- replace (i =? j) with false by (symmetry; apply Z.eqb_neq; lia). reflexivity.
    + destruct (mgr_handle m i) as [b m''] eqn:Em. simpl in *. rewrite Eki.
      split; [exact IH1|]. split; [|split; [exact IH3|]].
      * intros Hg. specialize (IH2 Hg). injection IH2 as -> ->. reflexivity.
      * intros j. rewrite IH4. destruct (k =? j) eqn:Ekj; destruct (j =? i) eqn:Eji; try reflexivity.
        apply Z.eqb_eq in Ekj, Eji. subst. rewrite Z.eqb_refl in Eki. discriminate.
Qed.

(** X19: [InputManager::update] updates every registered counter with the
    bit of its input in the frame's bitmask. *)
Theorem get_mgr_update (m : InputManager) inputs j :
  get (mgr_update m inputs) j = option_map (fun c => update c (Z.land inputs j =? j)) (get m j).
Proof.
  induction m as [|[k c] m IH]; simpl; [reflexivity|].
  destruct (k =? j) eqn:E; [|exact IH]. apply Z.eqb_eq in E. subst. reflexivity.
Qed.

End ManagerLaws.

Module RotationLaws.
Import Common.

(** X21: [Rotation::rotate_cw r n] returns the rotation of index [(r + n)
    mod 4] when the Rust remainder [(r + n) % 4] is a match arm, and panics
    when [r + n] is negative and not a multiple of 4. *)
Theorem rotate_cw_spec (r : Rotation) (n : Z) :
  ((0 <= rotation_index r + n \/ Z.rem (rotation_index r + n) 4 = 0) ->
   exists r', rotate_cw r n = Ret r' /\ rotation_index r' = (rotation_index r + n) mod 4) /\
  (rotation_index r + n < 0 -> Z.rem (rotation_index r + n) 4 <> 0 ->
   rotate_cw r n = Panic "never matched"%string).
Proof.
  unfold rotate_cw. set (a := rotation_index r + n). split.
  - intros Ha. assert (Hm : Z.rem a 4 = a mod 4).
    { destruct Ha as [Ha|Ha].
      - apply Z.rem_mod_nonneg; lia.
      - rewrite Ha. symmetry. apply Z.rem_mod_eq_0; [lia|exact Ha]. }
    rewrite Hm. assert (Hb := Z.mod_pos_bound a 4 ltac:(lia)).
    assert (Hc : a mod 4 = 0 \/ a mod 4 = 1 \/ a mod 4 = 2 \/ a mod 4 = 3) by lia.
    destruct Hc as [E|[E|[E|E]]]; rewrite E; eexists; (split; [reflexivity|]); reflexivity.
  - intros Ha Hr. assert (Hn : Z.rem a 4 < 0).
    { assert (Hs := Z.rem_nonpos a 4 ltac:(lia) ltac:(lia)). lia. }
    destruct (Z.rem a 4); [lia|lia|reflexivity].
Qed.

End RotationLaws.

Module IterLaws.
Import Common InputIter.

Lemma next_loop_fix (i : Z) (l : list Z) :
  forall idx, let '(o, idx') := next_loop i idx l in
  o = find (fun f => input_contains i f) l /\ (idx <= idx')%nat /\
  next_loop i idx' (drop (idx' - idx) l) = (o, idx').
Proof.
  induction l as [|f l IH]; intros idx; simpl.
  - split; [reflexivity|]. split; [lia|]. rewrite Nat.sub_diag. reflexivity.
  - destruct (input_contains i f) eqn:E.
    + split; [reflexivity|]. split; [lia|]. rewrite Nat.sub_diag. simpl. rewrite E. reflexivity.
    + specialize (IH (S idx)). destruct (next_loop i (S idx) l) as [o idx'] eqn:En.
      destruct IH as (Ho & Hle & Hfix). split; [exact Ho|]. split; [lia|].
      replace (idx' - idx)%nat with (S (idx' - S idx)) by lia. exact Hfix.
Qed.

Lemma next_fix (it : InputIterator) :
  let '(o, it') := next it in
  o = find (fun f => input_contains (input it) f) (drop (next_idx it) INPUTS) /\
  input it' = input it /\ next it' = (o, it').
Proof.
  unfold next. pose proof (next_loop_fix (input it) (drop (next_idx it) INPUTS) (next_idx it)) as Hf.
  destruct (next_loop _ _ _) as [o idx'] eqn:E. destruct Hf as (Ho & Hle & Hfix).
  split; [exact Ho|]. split; [reflexivity|]. simpl.
  rewrite drop_drop in Hfix. replace (next_idx it + (idx' - next_idx it))%nat with idx' in Hfix by lia.
  rewrite Hfix. reflexivity.
Qed.

Lemma take_items_fix (it : InputIterator) o k :
  next it = (o, it) -> take_items it k = repeat o k.
Proof.
  intros Hn. induction k as [|k IH]; simpl; [reflexivity|]. rewrite Hn. f_equal. exact IH.
Qed.

(** X23: The [InputIterator] of a bitmask yields the first input flag it
    contains, or [None], again and again: its index never advances. *)
Theorem into_iter_repeats (i : Z) (k : nat) :
  take_items (into_iter i) k = repeat (find (fun f => input_contains i f) INPUTS) k.
Proof.
  destruct k as [|k]; [reflexivity|]. simpl.
  pose proof (next_fix (into_iter i)) as Hf. destruct (next (into_iter i)) as [o it'] eqn:E.
  destruct Hf as (Ho & _ & Hfix). simpl in Ho. rewrite Ho. f_equal.
  rewrite <- Ho. apply take_items_fix, Hfix.
Qed.

End IterLaws.

Module GameLaws.
Import Grid InputCounter Common.
#[local] Arguments Ok {A}.
#[local] Arguments Err {A}.
Section WithPiece.
Context {P : Type} `{Piece P}.

Lemma run_absorbing (cfg : GameConfig) (d : GameStateData) (s : GameState) inputs :
  (forall i, state_update cfg s d i = Ret (s, d, Ok None)) ->
  run (mkGame cfg d s) inputs = Ret (mkGame cfg d s).
Proof.
  intros Hs. induction inputs as [|i is IH]; simpl; [reflexivity|].
  unfold update. cbn [config game_state data]. rewrite Hs. exact IH.
Qed.

(** X26: [SpawnPiece], [GameOver] and [Error] are never left: any sequence
    of updates keeps the game, its data included, unchanged. *)
Theorem terminal_states_absorbing (cfg : GameConfig) (d : GameStateData) (r : Z) (reason : string) inputs :
  run (mkGame cfg d StSpawnPiece) inputs = Ret (mkGame cfg d StSpawnPiece) /\
  run (mkGame cfg d (StGameOver r)) inputs = Ret (mkGame cfg d (StGameOver r)) /\
  run (mkGame cfg d (StError reason)) inputs = Ret (mkGame cfg d (StError reason)).
Proof. split; [|split]; apply run_absorbing; reflexivity. Qed.

(** X25: The first [update] of [Game::new] enters Play with fresh counters
    when a falling piece is present and [SpawnPiece] otherwise; without a
    falling piece the game then stays in [SpawnPiece] with unchanged data. *)
Theorem init_first_update (cfg : GameConfig) (d : GameStateData) (i : Z) (is : list Z) :
  update (Game_new cfg d) i =
    Ret (mkGame cfg d (match falling_piece d with Some _ => StPlay 0 0 false | None => StSpawnPiece end)) /\
  (falling_piece d = None -> run (Game_new cfg d) (i :: is) = Ret (mkGame cfg d StSpawnPiece)).
Proof.
  assert (Hu : update (Game_new cfg d) i =
    Ret (mkGame cfg d (match falling_piece d with Some _ => StPlay 0 0 false | None => StSpawnPiece end))).
  { unfold update, Game_new. simpl. destruct (falling_piece d) eqn:E; simpl; rewrite ?E; reflexivity. }
  split; [exact Hu|]. intros Hn. simpl. rewrite Hu, Hn. simpl.
  apply run_absorbing. reflexivity.
Qed.


Lemma line_clear_from (cfg : GameConfig) (d : GameStateData) (c : N) inputs :
  (1 <= c)%N -> (c <= line_clear_delay (params cfg))%N -> (line_clear_delay (params cfg) < 255)%N ->
  run (mkGame cfg d (StLineClear c)) inputs =
  Ret (mkGame cfg d (if (c + N.of_nat (length inputs) <=? line_clear_delay (params cfg))%N
                     then StLineClear (c + N.of_nat (length inputs)) else StSpawnPiece)).
Proof.
  revert c. induction inputs as [|i is IH]; intros c H1 H2 H3.
  - cbn [run length]. rewrite N.add_0_r.
    replace ((c <=? line_clear_delay (params cfg))%N) with true by (symmetry; apply N.leb_le; lia).
    reflexivity.
  - cbn [run]. unfold update. cbn [config game_state data state_update]. unfold line_clear_update.
    replace ((c =? 0)%N) with false by (symmetry; apply N.eqb_neq; lia).
    unfold u8_incr. replace ((c <? 255)%N) with true by (symmetry; apply N.ltb_lt; lia).
    cbn [mbind outcome_mbind obind].
    destruct ((c + 1 <=? line_clear_delay (params cfg))%N) eqn:E.
    + apply N.leb_le in E. cbn [handle_result mbind outcome_mbind obind].
      rewrite (IH (c + 1)%N) by lia. cbn [length].
      replace (c + 1 + N.of_nat (length is))%N with (c + N.of_nat (S (length is)))%N by lia.
      reflexivity.
    + apply N.leb_gt in E. cbn [handle_result state_enter config data mbind outcome_mbind obind].
      rewrite run_absorbing by reflexivity. cbn [length].
      replace ((c + N.of_nat (S (length is)) <=? line_clear_delay (params cfg))%N) with false
        by (symmetry; apply N.leb_gt; lia).
      reflexivity.
Qed.

(** X28: With [line_clear_delay < 255], starting LineClear at counter 0: the
    filled rows are plucked on the first update only, the counter counts the
    updates, and the game goes to [SpawnPiece] on update [line_clear_delay +
    1] and stays there. *)
Theorem line_clear_timing (cfg : GameConfig) (d : GameStateData) inputs :
  (line_clear_delay (params cfg) < 255)%N ->
  let pf := playfield d in
  let d' := set_playfield d (mkPlayfield (visible_rows pf) (fst (pluck_filled_rows (grid pf) (Some Empty)))) in
  run (mkGame cfg d (StLineClear 0)) inputs =
  Ret (mkGame cfg (match inputs with [] => d | _ => d' end)
         (if (N.of_nat (length inputs) <=? line_clear_delay (params cfg))%N
          then StLineClear (N.of_nat (length inputs)) else StSpawnPiece)).
Proof.
  intros HD pf d'. destruct inputs as [|i is].
  - cbn [run length]. change (N.of_nat 0) with 0%N.
    replace ((0 <=? line_clear_delay (params cfg))%N) with true by (symmetry; apply N.leb_le; lia).
    reflexivity.
  - cbn [run]. unfold update. cbn [config game_state data state_update]. unfold line_clear_update.
    cbn [N.eqb u8_incr]. unfold u8_incr. cbn [N.ltb N.compare Pos.compare Pos.compare_cont].
    cbn [mbind outcome_mbind obind N.add].
    fold pf d'. change (0 + 1)%N with 1%N.
    destruct ((1 <=? line_clear_delay (params cfg))%N) eqn:E.
    + apply N.leb_le in E. cbn [handle_result mbind outcome_mbind obind].
      rewrite line_clear_from by lia. cbn [length].
      replace (1 + N.of_nat (length is))%N with (N.of_nat (S (length is))) by lia.
      reflexivity.
    + apply N.leb_gt in E. cbn [handle_result state_enter config data mbind outcome_mbind obind].
      rewrite run_absorbing by reflexivity. cbn [length].
      replace ((N.of_nat (S (length is)) <=? line_clear_delay (params cfg))%N) with false
        by (symmetry; apply N.leb_gt; lia).
      reflexivity.
Qed.


End WithPiece.
End GameLaws.

Module TableLaws.
Import InputCounter InputManagerMore Common.

(** X24: [new_input_manager das arr] registers MOVE_LEFT and MOVE_RIGHT with
    [InputCounter::new(das, arr)], the six other inputs with
    [InputCounter::new(0, 0)], and nothing else. *)
Theorem new_input_manager_table (das arr : N) (i : Z) :
  get (new_input_manager das arr) i =
  if (i =? MOVE_LEFT) || (i =? MOVE_RIGHT) then Some (InputCounter.new das arr)
  else if existsb (Z.eqb i) InputIter.INPUTS then Some (InputCounter.new 0 0)
  else None.
Proof.
  unfold new_input_manager. rewrite !ManagerLaws.get_register_eq.
  unfold InputIter.INPUTS, HARD_DROP, SOFT_DROP, FIRM_DROP, MOVE_LEFT, MOVE_RIGHT,
    ROTATE_CW, ROTATE_CCW, HOLD.
  cbn [get existsb orb].
  destruct (Z.eqb_spec i 128) as [->|_]; [reflexivity|].
  destruct (Z.eqb_spec i 64) as [->|_]; [reflexivity|].
  destruct (Z.eqb_spec i 32) as [->|_]; [reflexivity|].
  destruct (Z.eqb_spec i 16) as [->|_]; [reflexivity|].
  destruct (Z.eqb_spec i 8) as [->|_]; [reflexivity|].
  destruct (Z.eqb_spec i 4) as [->|_]; [reflexivity|].
  destruct (Z.eqb_spec i 2) as [->|_]; [reflexivity|].
  destruct (Z.eqb_spec i 1) as [->|_]; reflexivity.
Qed.

End TableLaws.

Module PieceLaws.
Import Grid Common Tetro GridLaws.

Lemma mask_wf cols rows cs : wf (mask cols rows cs).
Proof.
  unfold mask. destruct (new_wf cols rows cs) as [Hw _].
  destruct (reverse_rows_spec _ Hw) as [Hr _]. exact Hr.
Qed.

Lemma definition_of_cw (g : PieceGrid) :
  wf g ->
  nth 1 (definition_of g) (Grid.new 0 0 []) = rotate1 (nth 0 (definition_of g) (Grid.new 0 0 [])) /\
  nth 2 (definition_of g) (Grid.new 0 0 []) = rotate1 (nth 1 (definition_of g) (Grid.new 0 0 [])) /\
  nth 3 (definition_of g) (Grid.new 0 0 []) = rotate1 (nth 2 (definition_of g) (Grid.new 0 0 [])) /\
  nth 0 (definition_of g) (Grid.new 0 0 []) = rotate1 (nth 3 (definition_of g) (Grid.new 0 0 [])).
Proof.
  intros Hw. destruct (rotate_compose_eq g Hw) as (H1 & H2 & H3). cbn [nth definition_of].
  auto.
Qed.

(** X29: For each piece of [PIECE_DEFINITIONS], the grid of the clockwise
    successor of a rotation is [rotate1] of the grid of that rotation, and
    [Rotation::cw] never panics. *)
Theorem piece_grid_cw (p : Piece) (r : Rotation) :
  match cw r with
  | Ret r' => piece_grid p r' = rotate1 (piece_grid p r)
  | _ => False
  end.
Proof.
  assert (Hd : forall g : PieceGrid, wf g -> nth (piece_index p) PIECE_DEFINITIONS [] = definition_of g ->
            match cw r with
            | Ret r' => piece_grid p r' = rotate1 (piece_grid p r)
            | _ => False
            end).
  { intros g Hw Hp. destruct (definition_of_cw g Hw) as (H1 & H2 & H3 & H4).
    unfold piece_grid, tetro_piece. rewrite Hp.
    destruct r; cbn [cw rotate_cw rotation_index Z.add Z.rem]; vm_compute (Z.to_nat _); assumption. }
  destruct p; eapply Hd; try reflexivity; apply mask_wf.
Qed.

End PieceLaws.

Module PaddingLaws.
Import Grid GridLaws.

Lemma find_seq (f : nat -> bool) s n :
  match find f (seq s n) with
  | Some k => (s <= k < s + n)%nat /\ f k = true /\ forall j, (s <= j < k)%nat -> f j = false
  | None => forall j, (s <= j < s + n)%nat -> f j = false
  end.
Proof.
  revert s. induction n as [|n IH]; intros s; cbn [seq find].
  - intros j Hj. lia.
  - destruct (f s) eqn:E.
    + split; [lia|split; [exact E|]]. intros j Hj. lia.
    + specialize (IH (S s)). destruct (find f (seq (S s) n)) as [k|] eqn:Ef.
      * destruct IH as (Hk & Hfk & Hlt). split; [lia|split; [exact Hfk|]].
        intros j Hj. destruct (Nat.eq_dec j s) as [->|Hne]; [exact E|]. apply Hlt. lia.
      * intros j Hj. destruct (Nat.eq_dec j s) as [->|Hne]; [exact E|]. apply IH. lia.
Qed.

Section Cells.
Context {C : Type} `{Default C} `{IsEmpty C}.

(** X13: [bottom_padding] counts the empty rows at the bottom: every row
    below it is empty, and the row at it, if any, holds a non-empty cell. *)
Theorem bottom_padding_spec (g : Grid C) :
  let b := bottom_padding g in
  (b <= num_rows g)%nat /\
  (forall x y, (x < num_cols g)%nat -> (y < b)%nat -> is_empty (cell g x y) = true) /\
  ((b < num_rows g)%nat -> exists x, (x < num_cols g)%nat /\ is_empty (cell g x b) = false).
Proof.
  unfold bottom_padding.
  pose proof (find_seq
    (fun n => existsb (fun x => negb (is_empty (cell g x n))) (seq 0 (num_cols g))) 0 (num_rows g)) as Hf.
  destruct (find _ _) as [k|] eqn:E.
  - destruct Hf as (Hk & Hfk & Hlt). split; [lia|split].
    + intros x y Hx Hy. specialize (Hlt y ltac:(lia)).
      destruct (is_empty (cell g x y)) eqn:Ec; [reflexivity|].
      exfalso. assert (Ht : existsb (fun x => negb (is_empty (cell g x y))) (seq 0 (num_cols g)) = true).
      { apply existsb_exists. exists x. split; [apply in_seq; lia|rewrite Ec; reflexivity]. }
      congruence.
    + intros _. apply existsb_exists in Hfk. destruct Hfk as (x & Hin & Hx).
      apply in_seq in Hin. exists x. split; [lia|]. destruct (is_empty (cell g x k)); [discriminate|reflexivity].
  - split; [lia|split].
    + intros x y Hx Hy. specialize (Hf y ltac:(lia)).
      destruct (is_empty (cell g x y)) eqn:Ec; [reflexivity|].
      exfalso. assert (Ht : existsb (fun x => negb (is_empty (cell g x y))) (seq 0 (num_cols g)) = true).
      { apply existsb_exists. exists x. split; [apply in_seq; lia|rewrite Ec; reflexivity]. }
      congruence.
    + intros Hlt. lia.
Qed.

Lemma find_ext_in {A} (f g : A -> bool) (l : list A) :
  (forall a, In a l -> f a = g a) -> find f l = find g l.
Proof.
  induction l as [|a l IH]; intros Hfg; cbn [find]; [reflexivity|].
  rewrite (Hfg a (or_introl eq_refl)). rewrite IH by (intros b Hb; apply Hfg; right; exact Hb).
  reflexivity.
Qed.

Lemma existsb_ext_in {A} (f g : A -> bool) (l : list A) :
  (forall a, In a l -> f a = g a) -> existsb f l = existsb g l.
Proof.
  induction l as [|a l IH]; intros Hfg; cbn [existsb]; [reflexivity|].
  rewrite (Hfg a (or_introl eq_refl)). rewrite IH by (intros b Hb; apply Hfg; right; exact Hb).
  reflexivity.
Qed.

(** X14: [top_padding] of a grid is the [bottom_padding] of the grid
    mirrored by [reverse_rows]. *)
Theorem top_padding_reverse (g : Grid C) :
  wf g -> top_padding g = bottom_padding (reverse_rows g).
Proof.
  intros Hw. destruct (reverse_rows_spec g Hw) as (_ & Hr & Hc & Hcell).
  unfold top_padding, bottom_padding. rewrite Hr, Hc.
  rewrite (find_ext_in _ (fun n => existsb (fun x => negb (is_empty (cell (reverse_rows g) x n)))
                                    (seq 0 (num_cols g)))); [reflexivity|].
  intros n Hn. apply in_seq in Hn. apply existsb_ext_in. intros x Hx. apply in_seq in Hx.
  rewrite Hcell by lia. do 3 f_equal. lia.
Qed.

End Cells.
End PaddingLaws.

Module LawExamples.
Import Grid GridFacts GridLaws OverlayLaws TowardLaws DropLaws PaddingLaws GameLaws Common Tetro Samples.
#[local] Arguments Ok {A}.

Lemma set_cell_cell_witness :
  (wf g2x2 /\ (0 < num_cols g2x2)%nat /\ (1 < num_rows g2x2)%nat) /\
  (let g' := set_cell g2x2 0 1 5%N in
   wf g' /\ num_rows g' = num_rows g2x2 /\ num_cols g' = num_cols g2x2 /\
   forall px py, (px < num_cols g2x2)%nat -> (py < num_rows g2x2)%nat ->
     cell g' px py = if (0 =? px)%nat && (1 =? py)%nat then 5%N else cell g2x2 px py).
Proof.
  split; [vm_compute; split; [reflexivity|lia]|].
  apply (set_cell_cell g2x2 0 1 5%N); vm_compute; [reflexivity|lia|lia].
Defined.

Lemma rotate_compose_witness :
  wf one_block /\
  rotate1 (rotate1 one_block) = rotate2 one_block /\ rotate1 (rotate2 one_block) = rotate3 one_block /\
  rotate1 (rotate3 one_block) = one_block.
Proof. split; [vm_compute; reflexivity|apply (rotate_compose one_block); vm_compute; reflexivity]. Defined.

Lemma reverse_rows_mirror_witness :
  wf g2x2 /\
  wf (reverse_rows g2x2) /\ num_rows (reverse_rows g2x2) = num_rows g2x2 /\
  num_cols (reverse_rows g2x2) = num_cols g2x2 /\
  (forall x y, (x < num_cols g2x2)%nat -> (y < num_rows g2x2)%nat ->
     cell (reverse_rows g2x2) x y = cell g2x2 x (num_rows g2x2 - 1 - y)) /\
  reverse_rows (reverse_rows g2x2) = g2x2.
Proof. split; [vm_compute; reflexivity|apply (reverse_rows_mirror g2x2); vm_compute; reflexivity]. Defined.

Lemma move_row_spec_witness :
  (wf g2x2 /\ (0 < num_rows g2x2)%nat /\ (1 < num_rows g2x2)%nat) /\
  (let g' := move_row g2x2 0 1 (Some 0%N) in
   wf g' /\ num_rows g' = num_rows g2x2 /\ num_cols g' = num_cols g2x2 /\
   forall x y, (x < num_cols g2x2)%nat -> (y < num_rows g2x2)%nat ->
     cell g' x y = if (y =? 0)%nat then 0%N
                   else if (y =? 1)%nat then cell g2x2 x 0 else cell g2x2 x y).
Proof.
  split; [vm_compute; split; [reflexivity|lia]|].
  apply (move_row_spec g2x2 0 1 (Some 0%N)); vm_compute; [reflexivity|lia|lia].
Defined.

Lemma fill_rows_spec_witness :
  (wf g2x2 /\ (2 <= num_rows g2x2)%nat) /\
  (let g' := fill_rows g2x2 1 2 7%N in
   wf g' /\ num_rows g' = num_rows g2x2 /\ num_cols g' = num_cols g2x2 /\
   forall x y, (x < num_cols g2x2)%nat -> (y < num_rows g2x2)%nat ->
     cell g' x y = if (1 <=? y)%nat && (y <? 2)%nat then 7%N else cell g2x2 x y).
Proof.
  split; [vm_compute; split; [reflexivity|lia]|].
  apply (fill_rows_spec g2x2 1 2 7%N); vm_compute; [reflexivity|lia].
Defined.

Lemma map_spec_witness :
  wf g2x2 /\
  (let g' := GridMore.map g2x2 N.succ in
   wf g' /\ num_rows g' = num_rows g2x2 /\ num_cols g' = num_cols g2x2 /\
   forall x y, (x < num_cols g2x2)%nat -> (y < num_rows g2x2)%nat -> cell g' x y = N.succ (cell g2x2 x y)).
Proof. split; [vm_compute; reflexivity|apply (map_spec g2x2 N.succ); vm_compute; reflexivity]. Defined.

Lemma overlay_spec_witness :
  wf g2x2 /\
  (let '(g', r) := overlay g2x2 1 0 one_block in
   r = check_overlay g2x2 1 0 one_block /\
   wf g' /\ num_rows g' = num_rows g2x2 /\ num_cols g' = num_cols g2x2 /\
   forall px py, (px < num_cols g2x2)%nat -> (py < num_rows g2x2)%nat ->
     cell g' px py =
       let sx := Z.of_nat px - 1 in
       let sy := Z.of_nat py - 0 in
       if (0 <=? sx) && (sx <? Z.of_nat (num_cols one_block)) && (0 <=? sy)
          && (sy <? Z.of_nat (num_rows one_block))
          && negb (is_empty (cell one_block (Z.to_nat sx) (Z.to_nat sy)))
          && is_empty (cell g2x2 px py)
       then cell one_block (Z.to_nat sx) (Z.to_nat sy) else cell g2x2 px py).
Proof. split; [vm_compute; reflexivity|apply (overlay_spec g2x2 one_block 1 0); vm_compute; reflexivity]. Defined.

Lemma check_overlay_toward_first_hit_witness :
  check_overlay_toward 5 g2x2 0 1 one_block 0 (-1) = Ret (2%nat, 1) /\
  (1 <> 0 /\ 1 = check_overlay g2x2 (0 + Z.of_nat 2 * 0) (1 + Z.of_nat 2 * (-1)) one_block /\
   forall k, (k < 2)%nat -> check_overlay g2x2 (0 + Z.of_nat k * 0) (1 + Z.of_nat k * (-1)) one_block = 0).
Proof.
  assert (E : check_overlay_toward 5 g2x2 0 1 one_block 0 (-1) = Ret (2%nat, 1)) by (vm_compute; reflexivity).
  split; [exact E|exact (check_overlay_toward_first_hit g2x2 one_block 5 0 1 0 (-1) 2 1 E)].
Defined.

Lemma pluck_filled_rows_none_filled_witness :
  GridMore.num_filled_rows g2x2 = 0%nat /\ pluck_filled_rows g2x2 (Some 0%N) = (g2x2, 0%nat).
Proof.
  split; [vm_compute; reflexivity|apply (pluck_filled_rows_none_filled g2x2 (Some 0%N)); vm_compute; reflexivity].
Defined.


Lemma top_padding_reverse_witness :
  wf (fp_grid fp0) /\ top_padding (fp_grid fp0) = bottom_padding (reverse_rows (fp_grid fp0)).
Proof.
  split; [vm_compute; reflexivity|apply (top_padding_reverse (fp_grid fp0)); vm_compute; reflexivity].
Defined.


Lemma line_clear_timing_witness :
  (line_clear_delay (params cfg0) < 255)%N /\
  (let pf := playfield data0 in
   let d' := set_playfield data0
               (mkPlayfield (visible_rows pf) (fst (pluck_filled_rows (grid pf) (Some Empty)))) in
   run (mkGame cfg0 data0 (StLineClear 0)) [0; 0] =
   Ret (mkGame cfg0 d' (if (N.of_nat 2 <=? line_clear_delay (params cfg0))%N
                        then StLineClear (N.of_nat 2) else StSpawnPiece))).
Proof.
  assert (H : (line_clear_delay (params cfg0) < 255)%N) by (vm_compute; reflexivity).
  split; [exact H|exact (line_clear_timing cfg0 data0 [0; 0] H)].
Defined.

End LawExamples.
